(** * Black-cat yarn ball: a shallow embedding of the physics core

    The repository ships three variants of one canvas program:
    - the impulse-based rigid body ([src/game.js], first listener, and
      [part_001]), with restitution and Coulomb friction;
    - the IK rigid-rod rope of [part_001] driven by a continuous spool feed;
    - the Verlet disk with a wound particle chain ([src/game.js], second
      listener).

    JavaScript numbers are modelled as exact rationals [Q] (the IK rope,
    which needs square roots, uses [R]).  Canvas drawing is left out. *)

From Stdlib Require Import QArith Qminmax Qabs Qround Lqa List Lia ZArith.
From Stdlib Require Import Reals Lra.
Import ListNotations.

(* ================================================================== *)
(** * Rigid body with impulse-based contacts ([src/game.js] lines 28-349) *)
(* ================================================================== *)

Module RigidBody.
Local Open Scope Q_scope.
Import Stdlib.micromega.Lqa.

(** World parameters. *)
Definition grav : Q := 1200.
Definition rest : Q := 0.72.
Definition wallRest : Q := 0.6.
Definition muGround : Q := 0.6.
Definition muWall : Q := 0.5.
Definition radius : Q := 40.
Definition mass : Q := 1.
Definition inertia : Q := (2 # 5) * mass * radius * radius.

(** The [ball] object. *)
Record ball := mkBall {
  x : Q; y : Q; vx : Q; vy : Q; angle : Q; spin : Q
}.

(** [Math.max], [Math.min], strict comparison as booleans. *)
Definition Qltb (a b : Q) : bool := negb (Qle_bool b a).
Definition clamp (v a b : Q) : Q := Qmax a (Qmin b v).
Definition cross2 (ax ay bx by_ : Q) : Q := ax * by_ - ay * bx.

Definition contactVelocity (vx vy omega rx ry : Q) : Q * Q :=
  (vx + (- omega * ry), vy + (omega * rx)).

Definition applyImpulseAtPoint (Jx Jy rx ry : Q) (b : ball) : ball :=
  mkBall b.(x) b.(y) (b.(vx) + Jx / mass) (b.(vy) + Jy / mass) b.(angle)
         (b.(spin) + cross2 rx ry Jx Jy / inertia).

(** The locals of [resolvePlaneContact], named as in the source. *)
Definition contact_vn (nx ny : Q) (b : ball) : Q :=
  let rx := - nx * radius in
  let ry := - ny * radius in
  let cv := contactVelocity b.(vx) b.(vy) b.(spin) rx ry in
  fst cv * nx + snd cv * ny.

Definition contact_kN (nx ny : Q) : Q :=
  let rn := cross2 (- nx * radius) (- ny * radius) nx ny in
  1 / (1 / mass + (rn * rn) / inertia).

Definition contact_kT (nx ny : Q) : Q :=
  let rt := cross2 (- nx * radius) (- ny * radius) (- ny) nx in
  1 / (1 / mass + (rt * rt) / inertia).

Definition contact_Jn (nx ny e : Q) (b : ball) : Q :=
  - (1 + e) * contact_vn nx ny b * contact_kN nx ny.

(** The body after the normal impulse. *)
Definition after_normal (nx ny e : Q) (b : ball) : ball :=
  let Jn := contact_Jn nx ny e b in
  applyImpulseAtPoint (Jn * nx) (Jn * ny) (- nx * radius) (- ny * radius) b.

Definition contact_vt2 (nx ny e : Q) (b : ball) : Q :=
  let b1 := after_normal nx ny e b in
  let cv2 := contactVelocity b1.(vx) b1.(vy) b1.(spin)
               (- nx * radius) (- ny * radius) in
  fst cv2 * (- ny) + snd cv2 * nx.

Definition contact_Jt (nx ny e : Q) (b : ball) : Q :=
  - contact_vt2 nx ny e b * contact_kT nx ny.

Definition contact_maxF (nx ny e mu : Q) (b : ball) : Q :=
  mu * Qabs (contact_Jn nx ny e b).

Definition contact_JtClamped (nx ny e mu : Q) (b : ball) : Q :=
  let maxF := contact_maxF nx ny e mu b in
  clamp (contact_Jt nx ny e b) (- maxF) maxF.

(** [resolvePlaneContact(nx, ny, px, py, e, mu)]; [px], [py] are unused
    by the source as well. *)
Definition resolvePlaneContact (nx ny px py e mu : Q) (b : ball) : ball :=
  if Qle_bool 0 (contact_vn nx ny b) then b
  else
    let b1 := after_normal nx ny e b in
    let JtClamped := contact_JtClamped nx ny e mu b in
    applyImpulseAtPoint (JtClamped * (- ny)) (JtClamped * nx)
      (- nx * radius) (- ny * radius) b1.

Definition slop : Q := 0.2.
Definition percent : Q := 0.8.

Definition positionalCorrection (nx ny penetration : Q) (b : ball) : ball :=
  if Qle_bool penetration 0 then b
  else
    let corr := Qmax 0 (penetration - slop) * percent in
    mkBall (b.(x) + nx * corr) (b.(y) + ny * corr) b.(vx) b.(vy)
           b.(angle) b.(spin).

(** [const dt = clamp((now - last) / 1000, 0, 0.033)] *)
Definition tick_dt (now last : Q) : Q := clamp ((now - last) / 1000) 0 0.033.

Definition air : Q := 0.996.

(** Gravity, integration and air damping (lines 302-314). *)
Definition integrate (dt : Q) (b : ball) : ball :=
  let vy1 := b.(vy) + grav * dt in
  let x1 := b.(x) + b.(vx) * dt in
  let y1 := b.(y) + vy1 * dt in
  let a1 := b.(angle) + b.(spin) * dt in
  mkBall x1 y1 (b.(vx) * air) (vy1 * air) a1 (b.(spin) * air).

Definition floor_contact (h : Q) (b : ball) : ball :=
  if Qltb h (b.(y) + radius) then
    let b1 := positionalCorrection 0 (-1) (b.(y) + radius - h) b in
    resolvePlaneContact 0 (-1) b1.(x) b1.(y) rest muGround b1
  else b.

Definition ceiling_contact (b : ball) : ball :=
  if Qltb (b.(y) - radius) 0 then
    let b1 := positionalCorrection 0 1 (radius - b.(y)) b in
    resolvePlaneContact 0 1 b1.(x) b1.(y) wallRest muGround b1
  else b.

Definition left_contact (b : ball) : ball :=
  if Qltb (b.(x) - radius) 0 then
    let b1 := positionalCorrection 1 0 (radius - b.(x)) b in
    resolvePlaneContact 1 0 b1.(x) b1.(y) wallRest muWall b1
  else b.

Definition right_contact (w : Q) (b : ball) : ball :=
  if Qltb w (b.(x) + radius) then
    let b1 := positionalCorrection (-1) 0 (b.(x) + radius - w) b in
    resolvePlaneContact (-1) 0 b1.(x) b1.(y) wallRest muWall b1
  else b.

(** Boundary collisions, in the source order floor, ceiling, left, right. *)
Definition collide_bounds (w h : Q) (b : ball) : ball :=
  right_contact w (left_contact (ceiling_contact (floor_contact h b))).

(** The physics part of [step] before the off-screen reset and the pointer
    interaction: gravity, integration, damping, boundary resolution. *)
Definition advance (dt w h : Q) (b : ball) : ball :=
  collide_bounds w h (integrate dt b).

(** Kinetic plus potential energy; height above the floor is [h - y]
    since the canvas y axis points down. *)
Definition kinetic (b : ball) : Q :=
  (1 # 2) * mass * (b.(vx) * b.(vx) + b.(vy) * b.(vy))
  + (1 # 2) * inertia * (b.(spin) * b.(spin)).

Definition energy (h : Q) (b : ball) : Q :=
  kinetic b + mass * grav * (h - b.(y)).

End RigidBody.
(* ================================================================== *)
(** * Verlet disk with a wound particle chain ([src/game.js] 407-917) *)
(* ================================================================== *)

(** A rope particle [{x, y, px, py}]. *)
Module Particle.
Record t := mk { x : Q; y : Q; px : Q; py : Q }.
Definition zero : t := mk 0 0 0 0.
End Particle.

(** The pointer sample [mouse = {x, y, down}]. *)
Module Mouse.
Record t := mk { x : Q; y : Q; down : bool }.
End Mouse.

(** The stored previous sample [lastMouse = {x, y, t}]. *)
Module LastMouse.
Record sample := mk { x : Q; y : Q; t : Q }.
End LastMouse.

Module DiskChain.
Local Open Scope Q_scope.

Definition grav : Q := 1600.
Definition rest : Q := 0.55.
Definition fricGround : Q := 0.015.
Definition fricAir : Q := 0.997.
Definition wallRest : Q := 0.5.
Definition radius : Q := 38.
Definition totalLength : Q := 60 * 120.
Definition TOTAL_POINTS : nat := 500.
Definition ROPE_ITERS : nat := 5.
Definition SUBSTEPS : nat := 2.
Definition SEG_LEN : Q := totalLength / (inject_Z (Z.of_nat TOTAL_POINTS) - 1).

(** The disk [ball = {x, y, px, py, angle, pang, grounded}]. *)
Record disk := mkDisk {
  x : Q; y : Q; px : Q; py : Q; angle : Q; pang : Q; grounded : bool
}.

(** All mutable state of the closure. *)
Record sim := mkSim {
  ball : disk;
  points : list Particle.t;
  freeCount : nat;
  mouse : Mouse.t;
  lastMouse : LastMouse.sample;
  hitCooldown : Q;
  last : Q
}.

Definition Qltb (a b : Q) : bool := negb (Qle_bool b a).
Definition clamp (v a b : Q) : Q := Qmax a (Qmin b v).
(** [clamp] on integer-valued numbers. *)
Definition clampZ (v a b : Z) : Z := Z.max a (Z.min b v).

(** [points[i] = p]; the array always has [TOTAL_POINTS] entries. *)
Fixpoint set_nth {A} (i : nat) (v : A) (l : list A) : list A :=
  match l, i with
  | [], _ => []
  | _ :: r, O => v :: r
  | a :: r, S j => a :: set_nth j v r
  end.

Fixpoint mapi_from {A B} (f : nat -> A -> B) (i : nat) (l : list A) : list B :=
  match l with
  | [] => []
  | a :: r => f i a :: mapi_from f (S i) r
  end.

(** [integrateDisk(dt)] against a world of size [w] x [h], split into its
    commented stages. *)
Definition verletDisk (dt : Q) (b : disk) : disk :=
  let vx := b.(x) - b.(px) in
  let vy := b.(y) - b.(py) in
  mkDisk (b.(x) + vx * fricAir) (b.(y) + vy * fricAir + grav * dt * dt)
         b.(x) b.(y) b.(angle) b.(pang) false.

Definition collideFloor (h : Q) (b : disk) : disk :=
  if Qltb h (b.(y) + radius) then
    let y' := h - radius in
    let vpy := b.(py) - y' in
    mkDisk b.(x) y' b.(px) (y' + vpy * - rest) b.(angle) b.(pang) true
  else b.

Definition collideCeiling (b : disk) : disk :=
  if Qltb (b.(y) - radius) 0 then
    let y' := radius in
    let vpy := b.(py) - y' in
    mkDisk b.(x) y' b.(px) (y' + vpy * - wallRest) b.(angle) b.(pang) b.(grounded)
  else b.

Definition collideLeft (b : disk) : disk :=
  if Qltb (b.(x) - radius) 0 then
    let x' := radius in
    let vpx := b.(px) - x' in
    mkDisk x' b.(y) (x' + vpx * - wallRest) b.(py) b.(angle) b.(pang) b.(grounded)
  else b.

Definition collideRight (w : Q) (b : disk) : disk :=
  if Qltb w (b.(x) + radius) then
    let x' := w - radius in
    let vpx := b.(px) - x' in
    mkDisk x' b.(y) (x' + vpx * - wallRest) b.(py) b.(angle) b.(pang) b.(grounded)
  else b.

(** Rolling when grounded, then kinetic friction through [px]. *)
Definition rollGrounded (b : disk) : disk :=
  if b.(grounded) then
    let dx := b.(x) - b.(px) in
    let a' := b.(angle) + dx / radius in
    let vx2 := b.(x) - b.(px) in
    mkDisk b.(x) b.(y) (b.(x) - vx2 * (1 - fricGround)) b.(py) a' b.(pang) true
  else b.

Definition integrateDisk (w h dt : Q) (b : disk) : disk :=
  rollGrounded (collideRight w (collideLeft (collideCeiling
    (collideFloor h (verletDisk dt b))))).

(** The source calls [Math.hypot], [Math.cos] and [Math.sin]; they are
    kept abstract, as is the random wound path [woundLocal] built once by
    [buildWoundPath]. *)
Section WithMath.
Variable hypot : Q -> Q -> Q.
Variable cos sin : Q -> Q.
Variable woundLocal : list (Q * Q).

Definition setWoundWorldPositions (st : sim) : sim :=
  let cosA := cos st.(ball).(angle) in
  let sinA := sin st.(ball).(angle) in
  let cx := st.(ball).(x) in
  let cy := st.(ball).(y) in
  let glue i p :=
    if (st.(freeCount) <=? i)%nat && (i <? TOTAL_POINTS)%nat then
      let '(lx, ly) := nth i woundLocal (0, 0) in
      let wx := cx + (lx * cosA - ly * sinA) in
      let wy := cy + (lx * sinA + ly * cosA) in
      Particle.mk wx wy wx wy
    else p in
  mkSim st.(ball) (mapi_from glue 0 st.(points)) st.(freeCount) st.(mouse)
        st.(lastMouse) st.(hitCooldown) st.(last).

Definition integrateParticle (w h dt : Q) (p : Particle.t) : Particle.t :=
  let vx := Particle.x p - Particle.px p in
  let vy := Particle.y p - Particle.py p in
  let p := Particle.mk (Particle.x p + vx) (Particle.y p + vy + grav * dt * dt)
                       (Particle.x p) (Particle.y p) in
  let p := if Qltb h (Particle.y p) then
             Particle.mk (Particle.x p) h (Particle.px p)
                         (h + (h - Particle.py p) * - rest)
           else p in
  let p := if Qltb (Particle.y p) 0 then
             Particle.mk (Particle.x p) 0 (Particle.px p)
                         (0 + (0 - Particle.py p) * - wallRest)
           else p in
  let p := if Qltb (Particle.x p) 0 then
             Particle.mk 0 (Particle.y p) (0 + (0 - Particle.px p) * - wallRest)
                         (Particle.py p)
           else p in
  if Qltb w (Particle.x p) then
    Particle.mk w (Particle.y p) (w + (w - Particle.px p) * - wallRest)
                (Particle.py p)
  else p.

Definition integrateTail (w h dt : Q) (st : sim) : sim :=
  let step i p := if (i <? st.(freeCount))%nat then integrateParticle w h dt p else p in
  mkSim st.(ball) (mapi_from step 0 st.(points)) st.(freeCount) st.(mouse)
        st.(lastMouse) st.(hitCooldown) st.(last).

(** [Math.hypot(dx, dy) || 1e-6] *)
Definition dist_or_eps (dx dy : Q) : Q :=
  let d := hypot dx dy in if Qeq_bool d 0 then 1 # 1000000 else d.

(** One link [i-1] -- [i] of [satisfyConstraints]. *)
Definition constrainLink (h : Q) (fc i : nat) (pts : list Particle.t) :
    list Particle.t :=
  let a := nth (i - 1) pts Particle.zero in
  let b := nth i pts Particle.zero in
  let dx := Particle.x b - Particle.x a in
  let dy := Particle.y b - Particle.y a in
  let d := dist_or_eps dx dy in
  let diff := (d - SEG_LEN) / d in
  let '(moveA, moveB) :=
    if (fc <=? i)%nat && (fc <=? i - 1)%nat then (0, 0)
    else if (fc <=? i)%nat then (1, 0)
    else if (fc <=? i - 1)%nat then (0, 1)
    else (1 # 2, 1 # 2) in
  let a := Particle.mk (Particle.x a + dx * diff * moveA)
                       (Particle.y a + dy * diff * moveA)
                       (Particle.px a) (Particle.py a) in
  let b := Particle.mk (Particle.x b - dx * diff * moveB)
                       (Particle.y b - dy * diff * moveB)
                       (Particle.px b) (Particle.py b) in
  let a := if (i - 1 <? fc)%nat && Qltb h (Particle.y a)
           then Particle.mk (Particle.x a) h (Particle.px a) (Particle.py a)
           else a in
  let b := if (i <? fc)%nat && Qltb h (Particle.y b)
           then Particle.mk (Particle.x b) h (Particle.px b) (Particle.py b)
           else b in
  set_nth i b (set_nth (i - 1) a pts).

(** [for (let i = 1; i < TOTAL_POINTS; i++)], written with the count of
    links still to visit. *)
Fixpoint constrainLinks (h : Q) (fc : nat) (i todo : nat) (pts : list Particle.t) :=
  match todo with
  | O => pts
  | S k => constrainLinks h fc (S i) k (constrainLink h fc i pts)
  end.

Fixpoint iterate {A} (n : nat) (f : A -> A) (a : A) : A :=
  match n with O => a | S k => iterate k f (f a) end.

Definition satisfyConstraints (h : Q) (st : sim) : sim :=
  mkSim st.(ball)
    (iterate ROPE_ITERS (constrainLinks h st.(freeCount) 1 (TOTAL_POINTS - 1))
       st.(points))
    st.(freeCount) st.(mouse) st.(lastMouse) st.(hitCooldown) st.(last).

(** [maybeFreeNext(bySegments)] on the counter. *)
Fixpoint maybeFreeNext (bySegments : nat) (fc : nat) : nat :=
  match bySegments with
  | O => fc
  | S k => if (TOTAL_POINTS - 1 <=? fc)%nat then fc else maybeFreeNext k (S fc)
  end.

Definition withFreeCount (st : sim) (fc : nat) : sim :=
  mkSim st.(ball) st.(points) fc st.(mouse) st.(lastMouse) st.(hitCooldown)
        st.(last).

Definition tensionRelease (st : sim) : sim :=
  if (st.(freeCount) =? 0)%nat then st
  else
    let a := nth (st.(freeCount) - 1) st.(points) Particle.zero in
    let b := nth st.(freeCount) st.(points) Particle.zero in
    let d := hypot (Particle.x b - Particle.x a) (Particle.y b - Particle.y a) in
    if Qltb (SEG_LEN * 1.35) d then
      let extra := Z.min 4 (Qfloor ((d / SEG_LEN - 1.35) * 3) + 1) in
      setWoundWorldPositions
        (withFreeCount st (maybeFreeNext (Z.to_nat extra) st.(freeCount)))
    else st.

Definition handleMouseImpulses (dt now : Q) (st : sim) : sim :=
  let hitCooldown := Qmax 0 (st.(hitCooldown) - dt) in
  let m := st.(mouse) in
  let lm := st.(lastMouse) in
  let mdx := Mouse.x m - LastMouse.x lm in
  let mdy := Mouse.y m - LastMouse.y lm in
  let mdT := Qmax (1 # 1000) ((now - LastMouse.t lm) / 1000) in
  let mvx := mdx / mdT in
  let mvy := mdy / mdT in
  let lastMouse := LastMouse.mk (Mouse.x m) (Mouse.y m) now in
  let b := st.(ball) in
  let dx := Mouse.x m - b.(x) in
  let dy := Mouse.y m - b.(y) in
  let dist := hypot dx dy in
  let early := mkSim b st.(points) st.(freeCount) m lastMouse hitCooldown st.(last) in
  if negb (Mouse.down m) then early
  else if Qltb 0 hitCooldown then early
  else if Qltb (radius + 3) dist then early
  else
    let dd := if Qeq_bool dist 0 then 1 else dist in
    let nx := dx / dd in
    let ny := dy / dd in
    let approach := - (nx * mvx + ny * mvy) in
    let base := 520 + clamp (approach * 0.7) (-250) 900 in
    let Jx := - nx * base in
    let Jy := - ny * base - 150 in
    let vx := (b.(x) - b.(px)) + (Jx * (1 # 60)) in
    let vy := (b.(y) - b.(py)) + (Jy * (1 # 60)) in
    let b' := mkDisk b.(x) b.(y) (b.(x) - vx) (b.(y) - vy) b.(angle) b.(pang)
                     b.(grounded) in
    let Jmag := hypot Jx Jy in
    let segs := clampZ (Qfloor (Jmag / 25)) 1 8 in
    mkSim b' st.(points) (maybeFreeNext (Z.to_nat segs) st.(freeCount)) m lastMouse
          (1 # 10) st.(last).

(** One substep of [step]: disk, glue, tail, constraints, tension release,
    pointer. *)
Definition substep (w h dt now : Q) (st : sim) : sim :=
  let st := mkSim (integrateDisk w h dt st.(ball)) st.(points) st.(freeCount)
                  st.(mouse) st.(lastMouse) st.(hitCooldown) st.(last) in
  let st := setWoundWorldPositions st in
  let st := integrateTail w h dt st in
  let st := satisfyConstraints h st in
  let st := tensionRelease st in
  handleMouseImpulses dt now st.

(** [step(now)] with the canvas size [w] x [h] read by [syncWorld]. *)
Definition step (w h now : Q) (st : sim) : sim :=
  let rawDt := (now - st.(last)) / 1000 in
  let dt := clamp rawDt 0 0.033 in
  let st := mkSim st.(ball) st.(points) st.(freeCount) st.(mouse) st.(lastMouse)
                  st.(hitCooldown) now in
  let steps := Nat.max 1 SUBSTEPS in
  let hs := dt / inject_Z (Z.of_nat steps) in
  iterate steps (substep w h hs now) st.

End WithMath.
End DiskChain.

(* ================================================================== *)
(** * Spool feed of the IK-rope variant ([part_001] lines 40-54, 435-437,
      583-591) *)
(* ================================================================== *)

(** The rigid body of [part_001] is the same object with the same
    [contactVelocity] and the same [dt] clamp as in [RigidBody]; only the
    restitution constants differ, and they play no part in the feed. *)
Module Spool.
Import RigidBody.
Local Open Scope Q_scope.

Definition pxPerMeter : Q := 120.
Definition L_total : Q := 60 * pxPerMeter.
(** [let L_free = 0]. *)
Definition L_free0 : Q := 0.
Definition r_core : Q := 0.6 * radius.
Definition alpha : Q := (radius - r_core) / L_total.
Definition v_max_feed : Q := 800.

Definition r_spool_of (L : Q) : Q :=
  clamp (radius - alpha * (L_total - L)) r_core radius.

(** [Math.cos] and [Math.sin] are left abstract. *)
Section WithTrig.
Variables cos sin : Q -> Q.

(** The length update of [step]: [b] is the body as it is when the spool
    code runs, [dt] the tick's clamped step. *)
Definition spoolFeed (exitAngle : Q) (b : ball) (dt L_free : Q) : Q :=
  let r_spool := r_spool_of L_free in
  let worldExitAngle2 := exitAngle + b.(angle) in
  let nx_e := cos worldExitAngle2 in
  let ny_e := sin worldExitAngle2 in
  let tx_e := - ny_e in
  let ty_e := nx_e in
  let cv := contactVelocity b.(vx) b.(vy) b.(spin) (nx_e * r_spool) (ny_e * r_spool) in
  let v_ball_t := fst cv * tx_e + snd cv * ty_e in
  let feed := clamp v_ball_t 0 v_max_feed in
  clamp (L_free + feed * dt) 0 L_total.

End WithTrig.
End Spool.

(* ================================================================== *)
(** * IK rigid-rod rope of [part_001] (lines 58-180), over [R] *)
(* ================================================================== *)

(** A rope node [{x, y, px, py}]. *)
Module RopeNode.
Record t := mk { x : R; y : R; px : R; py : R }.
Definition zero : t := mk 0 0 0 0.
End RopeNode.

Module IKRope.
Import RopeNode.
Local Open Scope R_scope.

Definition grav : R := 1200.
Definition SEG_LEN_MIN : R := 6.
Definition SEG_LEN_MAX : R := 14.
(** [let SEG_LEN = 10]: the only write to it is the clamp of
    [ensureRopeForLength], so it is passed around as a value. *)
Definition SEG_LEN_init : R := 10.
Definition ROPE_ITERS : nat := 5.
Definition ROPE_DAMP : R := 0.985.

Definition clamp (v a b : R) : R := Rmax a (Rmin b v).

(** [Math.hypot] and [Math.floor]. *)
Definition hypot (a b : R) : R := sqrt (a * a + b * b).
Definition floor (r : R) : Z := Int_part r.

(** [d || e] on a number: [e] when [d] is [0]. *)
Definition orElse (d e : R) : R := if Req_EM_T d 0 then e else d.

Definition setXY (n : t) (nx ny : R) : t := mk nx ny n.(px) n.(py).

(** [targetCountForLength]. *)
Definition targetCountForLength (SEG_LEN L : R) : Z :=
  (Z.max 1 (floor (L / SEG_LEN)) + 1)%Z.

(** [addTailSegment]: reading [nodes[n-2]] of a shorter array throws,
    which is [None] here. *)
Definition addTailSegment (SEG_LEN : R) (nodes : list t) : option (list t) :=
  match rev nodes with
  | b :: a :: _ =>
      let dx := b.(x) - a.(x) in
      let dy := b.(y) - a.(y) in
      let d := orElse (hypot dx dy) 1 in
      let dx := dx / d in
      let dy := dy / d in
      let nx := b.(x) + dx * SEG_LEN in
      let ny := b.(y) + dy * SEG_LEN in
      Some (nodes ++ [mk nx ny nx ny])
  | _ => None
  end.

(** [while (nodes.length < target) addTailSegment()]; every round adds one
    node, so [target] rounds of fuel always suffice. *)
Fixpoint growWhile (fuel target : nat) (SEG_LEN : R) (nodes : list t)
  : option (list t) :=
  match fuel with
  | O => Some nodes
  | S fuel' =>
      if Nat.ltb (length nodes) target then
        match addTailSegment SEG_LEN nodes with
        | Some nodes' => growWhile fuel' target SEG_LEN nodes'
        | None => None
        end
      else Some nodes
  end.

(** [ensureRopeForLength]: returns the new [SEG_LEN] and node array. *)
Definition ensureRopeForLength (SEG_LEN L : R) (nodes : list t)
  : option (R * list t) :=
  let SEG_LEN' := clamp SEG_LEN SEG_LEN_MIN SEG_LEN_MAX in
  let target := Z.to_nat (targetCountForLength SEG_LEN' L) in
  match growWhile target target SEG_LEN' nodes with
  | Some nodes' => Some (SEG_LEN', nodes')
  | None => None
  end.

(** [integrateRope]: every node but the pinned head takes a damped Verlet
    step. *)
Definition integrateNode (dt : R) (n : t) : t :=
  let vx := (n.(x) - n.(px)) * ROPE_DAMP in
  let vy := (n.(y) - n.(py)) * ROPE_DAMP + grav * dt * dt * 0.4 in
  mk (n.(x) + vx) (n.(y) + vy) n.(x) n.(y).

Definition integrateRope (dt : R) (nodes : list t) : list t :=
  match nodes with
  | [] => []
  | head :: rest => head :: map (integrateNode dt) rest
  end.

(** One step of the forward reach: [nodes[i]] pulled toward the already
    placed [nodes[i+1]] ([next]). *)
Definition placeToward (SEG_LEN : R) (next n : t) : t :=
  let nx := next.(x) - n.(x) in
  let ny := next.(y) - n.(y) in
  let d := orElse (hypot nx ny) (1 / 1000000) in
  let r := SEG_LEN / d in
  setXY n (next.(x) - nx * r) (next.(y) - ny * r).

(** One step of the backward reach: [nodes[i]] pushed from the already
    placed [nodes[i-1]] ([prev]). *)
Definition placeFrom (SEG_LEN : R) (prev n : t) : t :=
  let nx := n.(x) - prev.(x) in
  let ny := n.(y) - prev.(y) in
  let d := orElse (hypot nx ny) (1 / 1000000) in
  let r := SEG_LEN / d in
  setXY n (prev.(x) + nx * r) (prev.(y) + ny * r).

(** The two inner loops; [forwardChain] runs over the nodes from
    [ti - 1] down to [0], i.e. over the reversed array. *)
Fixpoint forwardChain (SEG_LEN : R) (next : t) (ns : list t) : list t :=
  match ns with
  | [] => []
  | n :: rest => let n' := placeToward SEG_LEN next n in
                 n' :: forwardChain SEG_LEN n' rest
  end.

Fixpoint backwardChain (SEG_LEN : R) (prev : t) (ns : list t) : list t :=
  match ns with
  | [] => []
  | n :: rest => let n' := placeFrom SEG_LEN prev n in
                 n' :: backwardChain SEG_LEN n' rest
  end.

Definition forwardReach (SEG_LEN tgtX tgtY : R) (nodes : list t) : list t :=
  match rev nodes with
  | [] => []
  | tl :: rest =>
      let tl' := setXY tl tgtX tgtY in
      rev (tl' :: forwardChain SEG_LEN tl' rest)
  end.

Definition backwardReach (SEG_LEN anchorX anchorY : R) (nodes : list t)
  : list t :=
  match nodes with
  | [] => []
  | head :: rest =>
      let head' := setXY head anchorX anchorY in
      head' :: backwardChain SEG_LEN head' rest
  end.

Definition ropeIter (SEG_LEN anchorX anchorY tgtX tgtY : R) (nodes : list t)
  : list t :=
  backwardReach SEG_LEN anchorX anchorY (forwardReach SEG_LEN tgtX tgtY nodes).

Fixpoint iterRope (k : nat) (SEG_LEN anchorX anchorY tgtX tgtY : R)
  (nodes : list t) : list t :=
  match k with
  | O => nodes
  | S k' => ropeIter SEG_LEN anchorX anchorY tgtX tgtY
              (iterRope k' SEG_LEN anchorX anchorY tgtX tgtY nodes)
  end.

(** [satisfyRope]: [nodes[0]] of an empty array throws ([None]). *)
Definition satisfyRope (SEG_LEN anchorX anchorY : R) (nodes : list t)
  : option (list t) :=
  match nodes with
  | [] => None
  | _ :: rest =>
      let head := mk anchorX anchorY anchorX anchorY in
      match rest with
      | [] => Some [head]
      | _ :: _ =>
          let ns := head :: rest in
          let tl := last ns head in
          Some (iterRope ROPE_ITERS SEG_LEN anchorX anchorY tl.(x) tl.(y) ns)
      end
  end.

(** The closure state of the [part_001] listener that the rope code
    touches, next to the body it must leave alone. *)
Record body := mkBody { bx : R; by_ : R; bvx : R; bvy : R; bangle : R; bspin : R }.

Record world := mkWorld {
  ball : body;
  L_free : R;
  exitAngle : R;
  SEG_LEN : R;
  nodes : list t;
  ropeInited : bool;
  hitCooldown : R
}.

(** [integrateRope(dt); satisfyRope(anchorX, anchorY);] on the state. *)
Definition ropeUpdate (dt anchorX anchorY : R) (st : world) : option world :=
  match satisfyRope st.(SEG_LEN) anchorX anchorY (integrateRope dt st.(nodes)) with
  | Some ns => Some (mkWorld st.(ball) st.(L_free) st.(exitAngle) st.(SEG_LEN)
                       ns st.(ropeInited) st.(hitCooldown))
  | None => None
  end.

(** Distance of two nodes, as [Math.hypot] of their difference. *)
Definition node_dist (a b : t) : R := hypot (b.(x) - a.(x)) (b.(y) - a.(y)).

(** Every adjacent pair at distance [SEG_LEN] or [0]. *)
Fixpoint links_ok (SEG_LEN : R) (ns : list t) : Prop :=
  match ns with
  | a :: ((b :: _) as rest) =>
      (node_dist a b = SEG_LEN \/ node_dist a b = 0) /\ links_ok SEG_LEN rest
  | _ => True
  end.

End IKRope.

(* ================================================================== *)
(** * The rest of the impulse variant's [step] ([src/game.js] 293-400):
      off-screen reset and pointer hit *)
(* ================================================================== *)

Module RigidBodyTick.
Import RigidBody.
Local Open Scope Q_scope.

(** [if (ball.y - radius > h + 400)]: [rnd] is the value of
    [Math.random()]. *)
Definition offscreenReset (rnd w h : Q) (b : ball) : ball :=
  if Qltb (h + 400) (b.(y) - radius) then
    mkBall (w * 0.5) (h * 0.25) (120 * (rnd * 2 - 1)) (-600) b.(angle) 0
  else b.

Section WithHypot.
Variable hypot : Q -> Q -> Q.

(** The pointer interaction: [hc] is the cooldown already decremented at
    the start of [step]; returns the body, the new [lastMouse] and the
    new cooldown.  The source does not read [mouse.down] here. *)
Definition pointerHit (now hc : Q) (m : Mouse.t) (lm : LastMouse.sample)
  (b : ball) : ball * LastMouse.sample * Q :=
  let mdx := Mouse.x m - LastMouse.x lm in
  let mdy := Mouse.y m - LastMouse.y lm in
  let mdT := Qmax 0.001 ((now - LastMouse.t lm) / 1000) in
  let mvx := mdx / mdT in
  let mvy := mdy / mdT in
  let lm' := LastMouse.mk (Mouse.x m) (Mouse.y m) now in
  let dx := Mouse.x m - b.(x) in
  let dy := Mouse.y m - b.(y) in
  let dist := hypot dx dy in
  if Qltb dist (radius + 2) && Qle_bool hc 0 then
    let dd := if Qeq_bool dist 0 then 1 else dist in
    let nx := dx / dd in
    let ny := dy / dd in
    let approach := - (nx * mvx + ny * mvy) in
    let base := 420 + clamp (approach * 0.6) (-200) 800 in
    let Jx := - nx * base in
    let Jy := - ny * base - 120 in
    let rx := - nx * radius in
    let ry := - ny * radius in
    (applyImpulseAtPoint Jx Jy rx ry b, lm', 0.09)
  else (b, lm', hc).

End WithHypot.

(** The closure state [step] reads and writes. *)
Record state := mkState {
  ball : RigidBody.ball;
  mouse : Mouse.t;
  lastMouse : LastMouse.sample;
  hitCooldown : Q;
  last : Q
}.

(** [step(now)]: [rnd] is the [Math.random()] of the reset, [w] x [h] the
    canvas size. *)
Definition tick (hypot : Q -> Q -> Q) (rnd w h now : Q) (st : state) : state :=
  let dt := tick_dt now st.(last) in
  let hc := Qmax 0 (st.(hitCooldown) - dt) in
  let b := offscreenReset rnd w h (advance dt w h st.(ball)) in
  let '(b, lm, hc) := pointerHit hypot now hc st.(mouse) st.(lastMouse) b in
  mkState b st.(mouse) lm hc now.

(** The mouse handlers only write [mouse]. *)
Definition withMouse (st : state) (m : Mouse.t) : state :=
  mkState st.(ball) m st.(lastMouse) st.(hitCooldown) st.(last).

End RigidBodyTick.

(* ================================================================== *)
(** * The clamp variant ([part_000] lines 23-150) *)
(* ================================================================== *)

Module ClampBall.
Local Open Scope Q_scope.

Definition grav : Q := 1200.
Definition rest : Q := 0.72.
Definition wallRest : Q := 0.6.
Definition radius : Q := 40.

Record ball := mkBall { x : Q; y : Q; vx : Q; vy : Q }.

Definition Qltb (a b : Q) : bool := negb (Qle_bool b a).
Definition clamp (v a b : Q) : Q := Qmax a (Qmin b v).

(** Gravity and integration. *)
Definition integrate (dt : Q) (b : ball) : ball :=
  let vy1 := b.(vy) + grav * dt in
  mkBall (b.(x) + b.(vx) * dt) (b.(y) + vy1 * dt) b.(vx) vy1.

Definition collideFloor (h : Q) (b : ball) : ball :=
  if Qltb h (b.(y) + radius) then
    mkBall b.(x) (h - radius) (b.(vx) * 0.98) (b.(vy) * - rest)
  else b.

Definition collideCeiling (b : ball) : ball :=
  if Qltb (b.(y) - radius) 0 then
    mkBall b.(x) radius b.(vx) (b.(vy) * - wallRest)
  else b.

(** Left wall, [else if] right wall. *)
Definition collideWalls (w : Q) (b : ball) : ball :=
  if Qltb (b.(x) - radius) 0 then
    mkBall radius b.(y) (b.(vx) * - wallRest) b.(vy)
  else if Qltb w (b.(x) + radius) then
    mkBall (w - radius) b.(y) (b.(vx) * - wallRest) b.(vy)
  else b.

Definition collide (w h : Q) (b : ball) : ball :=
  collideWalls w (collideCeiling (collideFloor h b)).

Definition offscreenReset (rnd w h : Q) (b : ball) : ball :=
  if Qltb (h + 400) (b.(y) - radius) then
    mkBall (w * 0.5) (h * 0.25) (120 * (rnd * 2 - 1)) (-600)
  else b.

Definition pointerHit (hypot : Q -> Q -> Q) (now hc : Q) (m : Mouse.t)
  (lm : LastMouse.sample) (b : ball) : ball * LastMouse.sample * Q :=
  let mdx := Mouse.x m - LastMouse.x lm in
  let mdy := Mouse.y m - LastMouse.y lm in
  let mdT := Qmax 0.001 ((now - LastMouse.t lm) / 1000) in
  let mvx := mdx / mdT in
  let mvy := mdy / mdT in
  let lm' := LastMouse.mk (Mouse.x m) (Mouse.y m) now in
  let dx := Mouse.x m - b.(x) in
  let dy := Mouse.y m - b.(y) in
  let dist := hypot dx dy in
  if Qltb dist (radius + 2) && Qle_bool hc 0 then
    let dd := if Qeq_bool dist 0 then 1 else dist in
    let nx := dx / dd in
    let ny := dy / dd in
    let approach := - (nx * mvx + ny * mvy) in
    let base := 420 + clamp (approach * 0.6) (-200) 800 in
    (mkBall b.(x) b.(y) (b.(vx) + - nx * base) (b.(vy) + (- ny * base - 120)),
     lm', 0.09)
  else (b, lm', hc).

Record state := mkState {
  sball : ball;
  mouse : Mouse.t;
  lastMouse : LastMouse.sample;
  hitCooldown : Q;
  last : Q
}.

(** [step(now)] of [part_000]. *)
Definition tick (hypot : Q -> Q -> Q) (rnd w h now : Q) (st : state) : state :=
  let dt := clamp ((now - st.(last)) / 1000) 0 0.033 in
  let hc := Qmax 0 (st.(hitCooldown) - dt) in
  let b := offscreenReset rnd w h (collide w h (integrate dt st.(sball))) in
  let '(b, lm, hc) := pointerHit hypot now hc st.(mouse) st.(lastMouse) b in
  mkState b st.(mouse) lm hc now.

End ClampBall.

(* ================================================================== *)
(** * [initRope] of the disk variant ([src/game.js] 545-588) *)
(* ================================================================== *)

Module DiskChainInit.
Import DiskChain.
Local Open Scope Q_scope.

(** [let freeCount = 4] and the zero-filled [points] array. *)
Definition freeCount0 : nat := 4.
Definition initialPoints : list Particle.t := repeat Particle.zero TOTAL_POINTS.

Section WithMath.
Variable cos sin : Q -> Q.
(** [woundLocal] as filled by [buildWoundPath] (random). *)
Variable woundLocal : list (Q * Q).

Definition worldFromLocal (b : disk) (ix : nat) : Q * Q :=
  let '(lx, ly) := nth ix woundLocal (0, 0) in
  let cosA := cos b.(angle) in
  let sinA := sin b.(angle) in
  (b.(x) + (lx * cosA - ly * sinA), b.(y) + (lx * sinA + ly * cosA)).

(** [initRope()] after [buildWoundPath()]; [points[freeCount - 1]] with
    [freeCount = 0] is [points[-1]], undefined, and the write throws. *)
Definition initRope (exitAngle : Q) (fc : nat) (b : disk) (pts : list Particle.t)
  : option (list Particle.t) :=
  match fc with
  | O => None
  | S fcm1 =>
      let place i p :=
        if (fc <=? i)%nat && (i <? TOTAL_POINTS)%nat then
          let '(wx, wy) := worldFromLocal b i in Particle.mk wx wy wx wy
        else p in
      let pts := mapi_from place 0 pts in
      let ex := cos exitAngle in
      let ey := sin exitAngle in
      let tx := - ey in
      let ty := ex in
      let head := nth fc pts Particle.zero in
      let p1x := Particle.x head + tx * SEG_LEN in
      let p1y := Particle.y head + ty * SEG_LEN + 2 in
      let p0x := p1x + tx * SEG_LEN in
      let p0y := p1y + ty * SEG_LEN + 2 in
      Some (set_nth 0 (Particle.mk p0x p0y p0x p0y)
              (set_nth fcm1 (Particle.mk p1x p1y p1x p1y) pts))
  end.

End WithMath.
End DiskChainInit.

Module RigidBodyFacts.
Import RigidBody.
Local Open Scope Q_scope.
Import Stdlib.micromega.Lqa.

Lemma sq_nonneg (a : Q) : 0 <= a * a.
Proof.
  destruct (Qlt_le_dec a 0).
  - setoid_replace (a * a) with ((- a) * (- a)) by ring.
    apply Qmult_le_0_compat; lra.
  - apply Qmult_le_0_compat; lra.
Qed.

Lemma integrate_energy dt h b : energy h (integrate dt b) <= energy h b.
Proof.
  destruct b as [x0 y0 vx0 vy0 a0 w0]; unfold energy, kinetic, integrate; simpl.
  unfold inertia, mass, grav, air, radius.
  pose proof (sq_nonneg vx0). pose proof (sq_nonneg w0).
  pose proof (sq_nonneg (vy0 + 1200 * dt)). pose proof (sq_nonneg dt).
  lra.
Qed.

Lemma Qle_bool_false a b : Qle_bool a b = false -> b < a.
Proof.
  intros H. apply Qnot_le_lt. intros Hle.
  apply Qle_bool_iff in Hle. congruence.
Qed.

Lemma kinetic_impulse J dx dy rx ry b :
  kinetic (applyImpulseAtPoint (J * dx) (J * dy) rx ry b) ==
  kinetic b
  + J * (fst (contactVelocity (vx b) (vy b) (spin b) rx ry) * dx
         + snd (contactVelocity (vx b) (vy b) (spin b) rx ry) * dy)
  + J * J * ((dx * dx + dy * dy) / mass
             + cross2 rx ry dx dy * cross2 rx ry dx dy / inertia) / 2.
Proof.
  destruct b as [x0 y0 vx0 vy0 a0 w0].
  unfold kinetic, applyImpulseAtPoint, contactVelocity, cross2; simpl.
  unfold inertia, mass, radius. field.
Qed.

Lemma restitution_dissipates vn A e :
  0 < A -> 0 <= e <= 1 ->
  (- (1 + e) * vn * (1 / A)) * vn
  + (- (1 + e) * vn * (1 / A)) * (- (1 + e) * vn * (1 / A)) * A / 2 <= 0.
Proof.
  intros HA He.
  assert (Hk : 0 < 1 / A) by (apply Qlt_shift_div_l; lra).
  setoid_replace ((- (1 + e) * vn * (1 / A)) * vn
    + (- (1 + e) * vn * (1 / A)) * (- (1 + e) * vn * (1 / A)) * A / 2)
    with ((1 + e) * (e - 1) / 2 * (vn * vn * (1 / A))).
  2:{ field. intros Hc. rewrite Hc in HA. apply (Qlt_irrefl 0). exact HA. }
  revert Hk. generalize (1 / A) as k. intros k Hk.
  pose proof (sq_nonneg vn).
  assert (HP : 0 <= vn * vn * k) by (apply Qmult_le_0_compat; lra).
  assert (HE : 0 <= (1 + e) * (1 - e) / 2).
  { apply Qle_shift_div_l; [reflexivity|]. rewrite Qmult_0_l.
    apply Qmult_le_0_compat; lra. }
  pose proof (Qmult_le_0_compat _ _ HE HP) as Hprod.
  setoid_replace ((1 + e) * (e - 1) / 2 * (vn * vn * k))
    with (- ((1 + e) * (1 - e) / 2 * (vn * vn * k))) by field.
  lra.
Qed.

Lemma prod_nonpos a b : 0 <= a -> b <= 0 -> a * b <= 0.
Proof.
  intros Ha Hb.
  assert (H : 0 <= a * (- b)) by (apply Qmult_le_0_compat; lra).
  setoid_replace (a * b) with (- (a * (- b))) by ring. lra.
Qed.

Lemma friction_dissipates v B M :
  0 < B -> 0 <= M ->
  clamp (- v * (1 / B)) (- M) M * v
  + clamp (- v * (1 / B)) (- M) M * clamp (- v * (1 / B)) (- M) M * B / 2
  <= 0.
Proof.
  intros HB HM.
  assert (HBk : B * (1 / B) == 1)
    by (field; intros Hc; rewrite Hc in HB; apply (Qlt_irrefl 0); exact HB).
  set (J0 := - v * (1 / B)).
  assert (HvJ : v == - (J0 * B)).
  { unfold J0. setoid_replace (- v * (1 / B) * B) with (- v * (B * (1 / B))) by ring.
    rewrite HBk. ring. }
  set (c := clamp J0 (- M) M).
  assert (Hc : c * (c - 2 * J0) <= 0).
  { unfold c, clamp.
    destruct (Q.min_spec M J0) as [[Hlt Hm] | [Hle Hm]]; rewrite Hm;
    destruct (Q.max_spec (- M) J0) as [[Hlt' Hm'] | [Hle' Hm']];
    destruct (Q.max_spec (- M) M) as [[Hlt'' Hm''] | [Hle'' Hm'']];
    try rewrite Hm'; try rewrite Hm''.
    all: first
      [ setoid_replace (J0 * (J0 - 2 * J0)) with (- (J0 * J0)) by ring;
        pose proof (sq_nonneg J0); lra
      | apply prod_nonpos; lra
      | setoid_replace (- M * (- M - 2 * J0)) with (- (M * (- M - 2 * J0))) by ring;
        assert (0 <= M * (- M - 2 * J0)) by (apply Qmult_le_0_compat; lra);
        lra ]. }
  rewrite HvJ.
  setoid_replace (c * - (J0 * B) + c * c * B / 2) with (B * (c * (c - 2 * J0)) / 2)
    by field.
  apply Qle_shift_div_r; [reflexivity|]. rewrite Qmult_0_l.
  setoid_replace (B * (c * (c - 2 * J0))) with (- (B * (- (c * (c - 2 * J0)))))
    by ring.
  assert (0 <= B * (- (c * (c - 2 * J0)))) by (apply Qmult_le_0_compat; lra).
  lra.
Qed.

Lemma eff_mass_pos r : 0 < 1 / mass + r * r / inertia.
Proof.
  pose proof (sq_nonneg r).
  assert (HI : 0 < inertia) by reflexivity.
  assert (0 <= r * r / inertia).
  { apply Qle_shift_div_l; [exact HI|]. rewrite Qmult_0_l. exact H. }
  assert (Hm : 1 / mass == 1) by reflexivity. lra.
Qed.

(** Contact impulses never add kinetic energy, for a unit normal,
    restitution in [0, 1] and a non-negative friction coefficient. *)
Lemma resolve_kinetic nx ny px py e mu b :
  nx * nx + ny * ny == 1 -> 0 <= e <= 1 -> 0 <= mu ->
  kinetic (resolvePlaneContact nx ny px py e mu b) <= kinetic b.
Proof.
  intros Hn He Hmu.
  unfold resolvePlaneContact.
  destruct (Qle_bool 0 (contact_vn nx ny b)) eqn:Hvn; [apply Qle_refl|].
  rewrite kinetic_impulse.
  set (rn := cross2 (- nx * radius) (- ny * radius) nx ny).
  set (rt := cross2 (- nx * radius) (- ny * radius) (- ny) nx).
  assert (E1 : kinetic (after_normal nx ny e b) ==
     kinetic b + contact_Jn nx ny e b * contact_vn nx ny b
     + contact_Jn nx ny e b * contact_Jn nx ny e b
       * (1 / mass + rn * rn / inertia) / 2).
  { unfold after_normal. rewrite kinetic_impulse.
    rewrite Hn. reflexivity. }
  rewrite E1. clear E1.
  change (fst (contactVelocity (vx (after_normal nx ny e b)) (vy (after_normal nx ny e b))
            (spin (after_normal nx ny e b)) (- nx * radius) (- ny * radius)) * - ny
          + snd (contactVelocity (vx (after_normal nx ny e b)) (vy (after_normal nx ny e b))
            (spin (after_normal nx ny e b)) (- nx * radius) (- ny * radius)) * nx)
    with (contact_vt2 nx ny e b).
  fold rt.
  assert (Ht : - ny * - ny + nx * nx == 1) by (rewrite <- Hn; ring).
  rewrite Ht.
  pose proof (restitution_dissipates (contact_vn nx ny b)
                (1 / mass + rn * rn / inertia) e (eff_mass_pos rn) He) as HR.
  assert (HM : 0 <= contact_maxF nx ny e mu b).
  { unfold contact_maxF. apply Qmult_le_0_compat; [exact Hmu | apply Qabs_nonneg]. }
  pose proof (friction_dissipates (contact_vt2 nx ny e b)
                (1 / mass + rt * rt / inertia) _ (eff_mass_pos rt) HM) as HF.
  unfold contact_JtClamped, contact_Jt, contact_kT.
  fold rt.
  unfold contact_Jn, contact_kN. fold rn.
  lra.
Qed.

Lemma positionalCorrection_kinetic nx ny pen b :
  kinetic (positionalCorrection nx ny pen b) = kinetic b.
Proof.
  unfold positionalCorrection. destruct (Qle_bool pen 0); reflexivity.
Qed.

Ltac contact_step :=
  match goal with
  | |- context [if ?c then _ else _] => destruct c
  end;
  [ eapply Qle_trans;
    [ apply resolve_kinetic; [reflexivity | split; discriminate | discriminate]
    | rewrite positionalCorrection_kinetic; apply Qle_refl ]
  | apply Qle_refl ].

Lemma collide_bounds_kinetic w h b : kinetic (collide_bounds w h b) <= kinetic b.
Proof.
  unfold collide_bounds.
  eapply Qle_trans; [unfold right_contact; contact_step|].
  eapply Qle_trans; [unfold left_contact; contact_step|].
  eapply Qle_trans; [unfold ceiling_contact; contact_step|].
  unfold floor_contact; contact_step.
Qed.

(** ** C1 *)

(** Counterexample to C1: a body at rest sunk 10 units into the floor (the
    canvas was resized under it) is pushed up by the positional correction
    in a tick of 1/60 s; the pointer plays no role.  Its energy grows by
    more than 9000 units. *)
Lemma energy_increase_by_correction :
  energy 400 (mkBall 100 370 0 0 0 0) + 9000 <
  energy 400 (advance (1 # 60) 800 400 (mkBall 100 370 0 0 0 0)).
Proof. vm_compute. reflexivity. Qed.

(** C1 (amended): gravity integration, damping and the contact impulses
    never add energy; the only gain in a tick without pointer hit is the
    potential energy [m g] times the net upward displacement made by the
    positional corrections, i.e. the energy after the boundary resolution
    is at most the energy before plus [mass * grav * (y_int - y_final)],
    where [y_int] is the height coordinate reached by the integration. *)
Theorem advance_energy_bound dt w h b :
  energy h (advance dt w h b) <=
  energy h b + mass * grav * (y (integrate dt b) - y (advance dt w h b)).
Proof.
  pose proof (integrate_energy dt h b) as HI.
  pose proof (collide_bounds_kinetic w h (integrate dt b)) as HK.
  unfold advance, energy in *.
  revert HI HK.
  generalize (kinetic (collide_bounds w h (integrate dt b)))
             (y (collide_bounds w h (integrate dt b)))
             (kinetic (integrate dt b)) (y (integrate dt b)) (kinetic b) (y b).
  intros K2 Y2 K1 Y1 K0 Y0 HI HK.
  unfold mass, grav in *. lra.
Qed.

(** ** C2 *)

(** Counterexample to C2 in the impulse variant: after the floor contact of
    the tick the center is still 2.16 units inside the floor. *)
Lemma floor_penetration_remains :
  400 - radius < y (advance (1 # 60) 800 400 (mkBall 100 370 0 0 0 0)).
Proof. vm_compute. reflexivity. Qed.

(** In the impulse variant a floor penetration [p > slop] is reduced to
    [p - 0.8 (p - 0.2)], so the center is left below [h - radius]. *)
Lemma floor_contact_residual h b :
  slop < y b + radius - h ->
  y (floor_contact h b) + radius - h ==
  (y b + radius - h) - (y b + radius - h - slop) * percent.
Proof.
  intros Hp. unfold floor_contact.
  assert (Hlt : Qltb h (y b + radius) = true).
  { unfold Qltb. destruct (Qle_bool (y b + radius) h) eqn:E; [|reflexivity].
    apply Qle_bool_imp_le in E. unfold slop in Hp. lra. }
  rewrite Hlt.
  unfold resolvePlaneContact.
  set (b1 := positionalCorrection 0 (-1) (y b + radius - h) b).
  assert (Hy : y (if Qle_bool 0 (contact_vn 0 (-1) b1) then b1 else
     applyImpulseAtPoint (contact_JtClamped 0 (-1) rest muGround b1 * - (-1))
       (contact_JtClamped 0 (-1) rest muGround b1 * 0) (- 0 * radius)
       (- (-1) * radius) (after_normal 0 (-1) rest b1)) = y b1).
  { destruct (Qle_bool 0 _); reflexivity. }
  rewrite Hy. unfold b1, positionalCorrection.
  destruct (Qle_bool (y b + radius - h) 0) eqn:E.
  { apply Qle_bool_imp_le in E. unfold slop in Hp. lra. }
  simpl.
  rewrite Q.max_r by (unfold slop in *; lra).
  ring.
Qed.

(** ** C3 *)

(** C3: [resolvePlaneContact] leaves the body untouched when the normal
    contact velocity is non-negative; otherwise it applies the normal
    impulse [Jn = -(1+e) v_n kN] and then the friction impulse, which is
    the slip-cancelling [-v_t kT] clamped to [[-mu |Jn|, mu |Jn|]]: its
    magnitude never exceeds [mu |Jn|], and it is the full [-v_t kT]
    whenever that lies in the cone. *)
Theorem resolvePlaneContact_friction_cone nx ny px py e mu b :
  0 <= mu ->
  (0 <= contact_vn nx ny b -> resolvePlaneContact nx ny px py e mu b = b) /\
  (contact_vn nx ny b < 0 ->
     contact_Jn nx ny e b == - (1 + e) * contact_vn nx ny b * contact_kN nx ny /\
     resolvePlaneContact nx ny px py e mu b =
       applyImpulseAtPoint (contact_JtClamped nx ny e mu b * (- ny))
         (contact_JtClamped nx ny e mu b * nx) (- nx * radius) (- ny * radius)
         (after_normal nx ny e b) /\
     Qabs (contact_JtClamped nx ny e mu b) <= mu * Qabs (contact_Jn nx ny e b) /\
     (Qabs (- contact_vt2 nx ny e b * contact_kT nx ny)
        <= mu * Qabs (contact_Jn nx ny e b) ->
      contact_JtClamped nx ny e mu b == - contact_vt2 nx ny e b * contact_kT nx ny)).
Proof.
  intros Hmu. split.
  - intros Hvn. unfold resolvePlaneContact.
    apply Qle_bool_iff in Hvn. rewrite Hvn. reflexivity.
  - intros Hvn.
    assert (Hb : Qle_bool 0 (contact_vn nx ny b) = false).
    { destruct (Qle_bool 0 _) eqn:E; [|reflexivity].
      apply Qle_bool_imp_le in E. lra. }
    assert (HM : 0 <= contact_maxF nx ny e mu b).
    { unfold contact_maxF. apply Qmult_le_0_compat; [exact Hmu | apply Qabs_nonneg]. }
    split; [reflexivity|].
    split; [unfold resolvePlaneContact; rewrite Hb; reflexivity|].
    unfold contact_JtClamped, clamp. fold (contact_maxF nx ny e mu b).
    unfold contact_Jt.
    set (M := contact_maxF nx ny e mu b) in *.
    set (J := - contact_vt2 nx ny e b * contact_kT nx ny).
    split.
    + apply Qabs_case; intros _;
      destruct (Q.min_spec M J) as [[H1 H2] | [H1 H2]]; rewrite H2;
      destruct (Q.max_spec (- M) M) as [[H3 H4] | [H3 H4]];
      destruct (Q.max_spec (- M) J) as [[H5 H6] | [H5 H6]];
      try rewrite H4; try rewrite H6; lra.
    + intros HJ. apply Qabs_Qle_condition in HJ. destruct HJ as [HJ1 HJ2].
      rewrite Q.min_r by exact HJ2. rewrite Q.max_r by exact HJ1. reflexivity.
Qed.

(** Witness: a body falling onto the floor with some spin. *)
Lemma resolvePlaneContact_friction_cone_witness :
  0 <= muGround /\
  contact_vn 0 (-1) (mkBall 100 360 30 200 0 5) < 0 /\
  Qabs (contact_JtClamped 0 (-1) rest muGround (mkBall 100 360 30 200 0 5))
    <= muGround * Qabs (contact_Jn 0 (-1) rest (mkBall 100 360 30 200 0 5)).
Proof.
  assert (Hmu : 0 <= muGround) by (unfold muGround; lra).
  assert (Hvn : contact_vn 0 (-1) (mkBall 100 360 30 200 0 5) < 0)
    by (vm_compute; reflexivity).
  split; [exact Hmu|]. split; [exact Hvn|].
  exact (proj1 (proj2 (proj2 (proj2 (resolvePlaneContact_friction_cone 0 (-1) 100 400
           rest muGround (mkBall 100 360 30 200 0 5) Hmu) Hvn)))).
Defined.

(** ** C9 *)

(** C9: the tick's [dt] is the raw elapsed time in seconds clamped to
    [[0, 0.033]]: it is [0] for a non-positive elapsed time (the tick still
    runs, [step] has no early exit), the raw value inside the interval,
    and [0.033] beyond it. *)
Theorem tick_dt_clamped now last :
  0 <= tick_dt now last <= 0.033 /\
  ((now - last) / 1000 <= 0 -> tick_dt now last == 0) /\
  (0 <= (now - last) / 1000 <= 0.033 -> tick_dt now last == (now - last) / 1000) /\
  (0.033 <= (now - last) / 1000 -> tick_dt now last == 0.033).
Proof.
  unfold tick_dt, clamp.
  set (r := (now - last) / 1000).
  destruct (Q.min_spec 0.033 r) as [[H1 H2] | [H1 H2]]; rewrite H2;
  destruct (Q.max_spec 0 0.033) as [[H3 H4] | [H3 H4]];
  destruct (Q.max_spec 0 r) as [[H5 H6] | [H5 H6]];
  try rewrite H4; try rewrite H6;
  repeat split; intros; try lra.
Qed.

(** Witness: two frames with the same timestamp give a tick with [dt = 0];
    a 16 ms frame gives [dt = 0.016]. *)
Lemma tick_dt_clamped_witness :
  (5 - 5) / 1000 <= 0 /\ tick_dt 5 5 == 0 /\
  0 <= (21 - 5) / 1000 <= 0.033 /\ tick_dt 21 5 == (21 - 5) / 1000.
Proof.
  assert (H1 : (5 - 5) / 1000 <= 0) by (vm_compute; intros; discriminate).
  assert (H2 : 0 <= (21 - 5) / 1000 <= 0.033) by (split; vm_compute; intros; discriminate).
  split; [exact H1|]. split; [exact (proj1 (proj2 (tick_dt_clamped 5 5)) H1)|].
  split; [exact H2|]. exact (proj1 (proj2 (proj2 (tick_dt_clamped 21 5))) H2).
Defined.

End RigidBodyFacts.

Module DiskChainFacts.
Import DiskChain.
Local Open Scope Q_scope.
Import Stdlib.micromega.Lqa.

Lemma Qltb_true a b : Qltb a b = true -> a < b.
Proof.
  unfold Qltb. intros H. apply Qnot_le_lt. intros Hle.
  apply Qle_bool_iff in Hle. rewrite Hle in H. discriminate.
Qed.

Lemma Qltb_false a b : Qltb a b = false -> b <= a.
Proof.
  unfold Qltb. intros H. apply Qle_bool_iff.
  destruct (Qle_bool b a); [reflexivity | discriminate].
Qed.

(** After the four boundary checks of [integrateDisk], the center lies in
    the rectangle, provided the canvas is at least a diameter wide and
    high. *)
Ltac qltb_cases :=
  match goal with
  | |- context [Qltb ?a ?b] =>
      let E := fresh "E" in
      destruct (Qltb a b) eqn:E;
      [apply Qltb_true in E | apply Qltb_false in E]
  end.

Lemma integrateDisk_contained w h dt b :
  2 * radius <= w -> 2 * radius <= h ->
  radius <= x (integrateDisk w h dt b) <= w - radius /\
  radius <= y (integrateDisk w h dt b) <= h - radius.
Proof.
  intros Hw Hh. unfold integrateDisk.
  generalize (verletDisk dt b) as b0. intros b0.
  set (b1 := collideFloor h b0).
  assert (H1 : y b1 <= h - radius).
  { unfold b1, collideFloor. qltb_cases; simpl; lra. }
  set (b2 := collideCeiling b1).
  assert (H2 : radius <= y b2 <= h - radius).
  { unfold b2, collideCeiling. qltb_cases; simpl; lra. }
  set (b3 := collideLeft b2).
  assert (H3 : radius <= x b3 /\ y b3 = y b2).
  { unfold b3, collideLeft. qltb_cases; simpl; split; try reflexivity; lra. }
  set (b4 := collideRight w b3).
  assert (H4 : radius <= x b4 <= w - radius /\ y b4 = y b3).
  { unfold b4, collideRight. qltb_cases; simpl; repeat split; try reflexivity; lra. }
  assert (H5 : x (rollGrounded b4) = x b4 /\ y (rollGrounded b4) = y b4).
  { unfold rollGrounded. destruct (grounded b4); split; reflexivity. }
  destruct H5 as [-> ->]. destruct H3 as [H3 H3']. destruct H4 as [H4 H4'].
  rewrite H4', H3'. split; [exact H4 | exact H2].
Qed.

Lemma iterate_S {A} n (f : A -> A) a : iterate (S n) f a = iterate n f (f a).
Proof. reflexivity. Qed.

Definition fc_step (fc fc' : nat) : Prop :=
  (fc <= fc')%nat /\ ((fc <= 499)%nat -> (fc' <= 499)%nat).

Lemma fc_step_refl fc : fc_step fc fc.
Proof. split; lia. Qed.

Lemma fc_step_trans a b c : fc_step a b -> fc_step b c -> fc_step a c.
Proof. unfold fc_step. intros [H1 H2] [H3 H4]. split; lia. Qed.

Lemma maybeFreeNext_step n fc : fc_step fc (maybeFreeNext n fc).
Proof.
  revert fc; induction n as [|n IH]; intros fc; cbn [maybeFreeNext].
  - apply fc_step_refl.
  - destruct (TOTAL_POINTS - 1 <=? fc)%nat eqn:E.
    + apply fc_step_refl.
    + apply Nat.leb_gt in E. unfold TOTAL_POINTS in E.
      eapply fc_step_trans; [|apply IH]. split; lia.
Qed.

Section Math.
Variable hypot : Q -> Q -> Q.
Variable cos sin : Q -> Q.
Variable wl : list (Q * Q).

Lemma satisfyConstraints_freeCount h st :
  freeCount (satisfyConstraints hypot h st) = freeCount st.
Proof. reflexivity. Qed.

Lemma integrateTail_freeCount w h dt st :
  freeCount (integrateTail w h dt st) = freeCount st.
Proof. reflexivity. Qed.

Lemma setWoundWorldPositions_freeCount st :
  freeCount (setWoundWorldPositions cos sin wl st) = freeCount st.
Proof. reflexivity. Qed.

Lemma tensionRelease_step st :
  fc_step (freeCount st) (freeCount (tensionRelease hypot cos sin wl st)).
Proof.
  unfold tensionRelease.
  destruct (freeCount st =? 0)%nat; [apply fc_step_refl|].
  destruct (Qltb _ _); [apply maybeFreeNext_step | apply fc_step_refl].
Qed.

Lemma handleMouseImpulses_step dt now st :
  fc_step (freeCount st) (freeCount (handleMouseImpulses hypot dt now st)).
Proof.
  unfold handleMouseImpulses. cbv zeta.
  destruct (negb _); [apply fc_step_refl|].
  destruct (Qltb 0 _); [apply fc_step_refl|].
  destruct (Qltb _ _); [apply fc_step_refl|].
  apply maybeFreeNext_step.
Qed.

Lemma substep_unfold w h dt now st :
  substep hypot cos sin wl w h dt now st =
  handleMouseImpulses hypot dt now (tensionRelease hypot cos sin wl
   (satisfyConstraints hypot h (integrateTail w h dt (setWoundWorldPositions cos sin wl
     (mkSim (integrateDisk w h dt st.(ball)) st.(points) st.(freeCount)
                  st.(mouse) st.(lastMouse) st.(hitCooldown) st.(last)))))).
Proof. reflexivity. Qed.

Lemma substep_step w h dt now st :
  fc_step (freeCount st) (freeCount (substep hypot cos sin wl w h dt now st)).
Proof.
  rewrite substep_unfold.
  set (s0 := mkSim (integrateDisk w h dt st.(ball)) st.(points) st.(freeCount)
                   st.(mouse) st.(lastMouse) st.(hitCooldown) st.(last)).
  set (s1 := satisfyConstraints hypot h
               (integrateTail w h dt (setWoundWorldPositions cos sin wl s0))).
  pose proof (handleMouseImpulses_step dt now (tensionRelease hypot cos sin wl s1)) as H1.
  pose proof (tensionRelease_step s1) as H2.
  unfold s1 in H2.
  rewrite satisfyConstraints_freeCount, integrateTail_freeCount,
    setWoundWorldPositions_freeCount in H2.
  exact (fc_step_trans _ _ _ H2 H1).
Qed.

Lemma iterate_substep n w h dt now st :
  fc_step (freeCount st)
    (freeCount (iterate n (substep hypot cos sin wl w h dt now) st)).
Proof.
  revert st; induction n as [|n IH]; intros st.
  - apply fc_step_refl.
  - rewrite iterate_S.
    eapply fc_step_trans; [apply substep_step | apply IH].
Qed.

End Math.

Lemma step_unfold hypot cos sin wl w h now st :
  step hypot cos sin wl w h now st =
  iterate (Nat.max 1 SUBSTEPS)
    (substep hypot cos sin wl w h
       (clamp ((now - st.(last)) / 1000) 0 0.033
        / inject_Z (Z.of_nat (Nat.max 1 SUBSTEPS))) now)
    (mkSim st.(ball) st.(points) st.(freeCount) st.(mouse) st.(lastMouse)
           st.(hitCooldown) now).
Proof. reflexivity. Qed.

(** ** C2 *)

(** C2 (amended): in the Verlet disk variant, once the canvas is at least
    a diameter wide and high, the center lies in
    [[radius, w - radius] x [radius, h - radius]] after the boundary
    resolution of the tick; in the impulse variant the positional
    correction only reduces a floor penetration [p > 0.2] to
    [p - 0.8 (p - 0.2)], so containment is not restored in that tick. *)
Theorem boundary_containment w h dt b :
  (2 * radius <= w -> 2 * radius <= h ->
   radius <= x (integrateDisk w h dt b) <= w - radius /\
   radius <= y (integrateDisk w h dt b) <= h - radius) /\
  (forall hI bI, RigidBody.slop < RigidBody.y bI + RigidBody.radius - hI ->
   RigidBody.y (RigidBody.floor_contact hI bI) + RigidBody.radius - hI ==
   (RigidBody.y bI + RigidBody.radius - hI)
   - (RigidBody.y bI + RigidBody.radius - hI - RigidBody.slop) * RigidBody.percent).
Proof.
  split.
  - apply integrateDisk_contained.
  - apply RigidBodyFacts.floor_contact_residual.
Qed.

(** Witness: an 800 x 600 canvas and a disk near the floor; an impulse
    body 30 units into a floor at [h = 400]. *)
Lemma boundary_containment_witness :
  2 * radius <= 800 /\ 2 * radius <= 600 /\
  radius <= y (integrateDisk 800 600 (1 # 60) (mkDisk 100 590 100 580 0 0 false))
    <= 600 - radius /\
  RigidBody.slop < RigidBody.y (RigidBody.mkBall 100 390 0 0 0 0) + RigidBody.radius - 400 /\
  RigidBody.y (RigidBody.floor_contact 400 (RigidBody.mkBall 100 390 0 0 0 0))
    + RigidBody.radius - 400 == 30 - (30 - RigidBody.slop) * RigidBody.percent.
Proof.
  assert (Hw : 2 * radius <= 800) by (unfold radius; lra).
  assert (Hh : 2 * radius <= 600) by (unfold radius; lra).
  assert (Hs : RigidBody.slop < RigidBody.y (RigidBody.mkBall 100 390 0 0 0 0)
                 + RigidBody.radius - 400)
    by (unfold RigidBody.slop, RigidBody.radius; simpl; lra).
  destruct (boundary_containment 800 600 (1 # 60) (mkDisk 100 590 100 580 0 0 false))
    as [HA HB].
  split; [exact Hw|]. split; [exact Hh|].
  split; [exact (proj2 (HA Hw Hh))|]. split; [exact Hs|].
  rewrite (HB 400 (RigidBody.mkBall 100 390 0 0 0 0) Hs).
  unfold RigidBody.radius; simpl. lra.
Defined.

(** ** C6 *)

(** C6: across a tick of the disk variant (two substeps, each with a
    tension release and a pointer release), [freeCount] never decreases,
    and from any value at most [TOTAL_POINTS - 1] it stays at most
    [TOTAL_POINTS - 1]; the same holds for every single release
    [maybeFreeNext n]. *)
Theorem freeCount_monotone_bounded hypot cos sin wl w h now st :
  (freeCount st <= freeCount (step hypot cos sin wl w h now st))%nat /\
  ((freeCount st <= TOTAL_POINTS - 1)%nat ->
   (freeCount (step hypot cos sin wl w h now st) <= TOTAL_POINTS - 1)%nat) /\
  (forall n fc, (fc <= maybeFreeNext n fc)%nat /\
     ((fc <= TOTAL_POINTS - 1)%nat -> (maybeFreeNext n fc <= TOTAL_POINTS - 1)%nat)).
Proof.
  rewrite step_unfold.
  pose proof (iterate_substep hypot cos sin wl (Nat.max 1 SUBSTEPS) w h
    (clamp ((now - st.(last)) / 1000) 0 0.033
        / inject_Z (Z.of_nat (Nat.max 1 SUBSTEPS))) now
    (mkSim st.(ball) st.(points) st.(freeCount) st.(mouse) st.(lastMouse)
           st.(hitCooldown) now)) as [H1 H2].
  cbn [freeCount] in H1, H2.
  unfold TOTAL_POINTS.
  split; [exact H1|]. split; [exact H2|].
  intros n fc. apply maybeFreeNext_step.
Qed.

(** Witness: a state with four free particles, any trigonometry. *)
Lemma freeCount_monotone_bounded_witness :
  (freeCount (mkSim (mkDisk 100 100 100 100 0 0 false) [] 4
               (Mouse.mk 0 0 false) (LastMouse.mk 0 0 0) 0 0)
     <= TOTAL_POINTS - 1)%nat /\
  (freeCount (step (fun a b => (Qabs a + Qabs b)%Q) (fun _ => 1%Q) (fun _ => 0%Q) [] 800 600 16
       (mkSim (mkDisk 100 100 100 100 0 0 false) [] 4
          (Mouse.mk 0 0 false) (LastMouse.mk 0 0 0) 0 0))
     <= TOTAL_POINTS - 1)%nat.
Proof.
  assert (H : (freeCount (mkSim (mkDisk 100 100 100 100 0 0 false) [] 4
               (Mouse.mk 0 0 false) (LastMouse.mk 0 0 0) 0 0)
               <= TOTAL_POINTS - 1)%nat) by (unfold TOTAL_POINTS; simpl; lia).
  split; [exact H|].
  exact (proj1 (proj2 (freeCount_monotone_bounded (fun a b => (Qabs a + Qabs b)%Q)
    (fun _ => 1%Q) (fun _ => 0%Q) [] 800 600 16
    (mkSim (mkDisk 100 100 100 100 0 0 false) [] 4
       (Mouse.mk 0 0 false) (LastMouse.mk 0 0 0) 0 0))) H).
Defined.

(** ** C10 *)

(** C10: [handleMouseImpulses] changes the disk or [freeCount] only when
    the pointer is down, the decremented cooldown is [<= 0] and the pointer
    is within [radius + 3] of the center; with the button up it only
    decrements the cooldown and stores the new last-pointer sample. *)
Theorem handleMouseImpulses_needs_press hypot dt now st :
  (Mouse.down (mouse st) = false ->
   ball (handleMouseImpulses hypot dt now st) = ball st /\
   freeCount (handleMouseImpulses hypot dt now st) = freeCount st /\
   points (handleMouseImpulses hypot dt now st) = points st /\
   hitCooldown (handleMouseImpulses hypot dt now st) = Qmax 0 (hitCooldown st - dt) /\
   lastMouse (handleMouseImpulses hypot dt now st) =
     LastMouse.mk (Mouse.x (mouse st)) (Mouse.y (mouse st)) now) /\
  (ball (handleMouseImpulses hypot dt now st) <> ball st \/
   freeCount (handleMouseImpulses hypot dt now st) <> freeCount st ->
   Mouse.down (mouse st) = true /\
   Qmax 0 (hitCooldown st - dt) <= 0 /\
   hypot (Mouse.x (mouse st) - x (ball st)) (Mouse.y (mouse st) - y (ball st))
     <= radius + 3).
Proof.
  unfold handleMouseImpulses. cbv zeta.
  split.
  - intros Hd. rewrite Hd. cbn. repeat split.
  - destruct (Mouse.down (mouse st)) eqn:Hd; cbn [negb].
    2:{ cbn. intros [H | H]; exfalso; apply H; reflexivity. }
    destruct (Qltb 0 (Qmax 0 (hitCooldown st - dt))) eqn:Hc.
    { cbn. intros [H | H]; exfalso; apply H; reflexivity. }
    destruct (Qltb (radius + 3) _) eqn:Hr.
    { cbn. intros [H | H]; exfalso; apply H; reflexivity. }
    intros _. apply Qltb_false in Hc. apply Qltb_false in Hr.
    split; [reflexivity | split; assumption].
Qed.

(** Witness: the pointer hovering over the disk center with the button
    up. *)
Lemma handleMouseImpulses_needs_press_witness :
  Mouse.down (mouse (mkSim (mkDisk 100 100 100 100 0 0 false) [] 4
                 (Mouse.mk 100 100 false) (LastMouse.mk 90 100 0) 0 0)) = false /\
  freeCount (handleMouseImpulses (fun a b => (Qabs a + Qabs b)%Q) (1 # 60) 16
    (mkSim (mkDisk 100 100 100 100 0 0 false) [] 4
       (Mouse.mk 100 100 false) (LastMouse.mk 90 100 0) 0 0)) = 4%nat.
Proof.
  split; [reflexivity|].
  exact (proj1 (proj2 (proj1 (handleMouseImpulses_needs_press (fun a b => (Qabs a + Qabs b)%Q)
    (1 # 60) 16 (mkSim (mkDisk 100 100 100 100 0 0 false) [] 4
       (Mouse.mk 100 100 false) (LastMouse.mk 90 100 0) 0 0)) eq_refl))).
Defined.

End DiskChainFacts.

(* ================================================================== *)
(** * Spool feed: the released length *)
(* ================================================================== *)

Module SpoolFacts.
Import RigidBody Spool.
Local Open Scope Q_scope.
Import Stdlib.micromega.Lqa.

Lemma tick_dt_nonneg (now last : Q) : 0 <= tick_dt now last.
Proof. unfold tick_dt, clamp. apply Q.le_max_l. Qed.

Lemma clamp_lo_nonneg (v hi : Q) : 0 <= clamp v 0 hi.
Proof. unfold clamp. apply Q.le_max_l. Qed.

(** C5: the released length starts at [0], stays in [[0, L_total]] after
    every tick whatever the body does, and never decreases from a length in
    that range: the tangential surface speed is clamped to [[0, 800]]
    before it is multiplied by the non-negative step. *)
Theorem spool_length_monotone (cos sin : Q -> Q) (exitAngle : Q) (b : ball)
  (now last L : Q) :
  0 <= L_free0 <= L_total /\
  0 <= spoolFeed cos sin exitAngle b (tick_dt now last) L <= L_total /\
  (0 <= L <= L_total -> L <= spoolFeed cos sin exitAngle b (tick_dt now last) L).
Proof.
  assert (HLt : 0 <= L_total) by (unfold L_total, pxPerMeter; lra).
  unfold spoolFeed.
  set (v := fst _ * _ + snd _ * _).
  pose proof (clamp_lo_nonneg v v_max_feed) as Hf.
  pose proof (tick_dt_nonneg now last) as Hdt.
  set (f := clamp v 0 v_max_feed) in *.
  set (dt := tick_dt now last) in *.
  assert (Hp : 0 <= f * dt) by (apply Qmult_le_0_compat; assumption).
  unfold clamp at 1.
  split; [unfold L_free0; lra|].
  split; [split|].
  - apply Q.le_max_l.
  - apply Q.max_lub; [assumption | apply Q.le_min_l].
  - intros [HL0 HL1].
    eapply Qle_trans; [|apply Q.le_max_r].
    apply Q.min_glb; lra.
Qed.

(** Witness: the ball at rest, a full 1/60 s tick, from [L = 100]. *)
Lemma spool_length_monotone_witness :
  0 <= 100 <= L_total /\
  100 <= spoolFeed (fun _ => 1) (fun _ => 0) 0 (mkBall 100 100 50 0 0 3)
           (tick_dt (1000 # 60) 0) 100.
Proof.
  split.
  - unfold L_total, pxPerMeter; lra.
  - apply (spool_length_monotone (fun _ => 1) (fun _ => 0) 0
             (mkBall 100 100 50 0 0 3) (1000 # 60) 0 100).
    unfold L_total, pxPerMeter; lra.
Defined.

End SpoolFacts.

(* ================================================================== *)
(** * IK rope: link lengths, growth, one-way coupling *)
(* ================================================================== *)

Module IKRopeFacts.
Import RopeNode IKRope.
Local Open Scope R_scope.
Import Stdlib.micromega.Lra.

(** A placement from [prev] lands at distance [SEG_LEN] from it, or on it
    when the node already coincided with [prev] (the [|| 1e-6] case). *)
Lemma placeFrom_dist (seg : R) (prev n : t) :
  0 <= seg ->
  node_dist prev (placeFrom seg prev n) = seg \/
  node_dist prev (placeFrom seg prev n) = 0.
Proof.
  intros Hs.
  unfold node_dist, placeFrom, setXY, hypot, orElse; simpl.
  set (nx := x n - x prev). set (ny := y n - y prev).
  assert (Hq : 0 <= nx * nx + ny * ny) by nra.
  destruct (Req_EM_T (sqrt (nx * nx + ny * ny)) 0) as [H0 | H0].
  - right.
    apply sqrt_eq_0 in H0; [|exact Hq].
    assert (Hx : nx = 0) by nra. assert (Hy : ny = 0) by nra.
    rewrite Hx, Hy.
    replace (_ * _ + _ * _) with 0 by ring.
    apply sqrt_0.
  - left.
    set (d := sqrt (nx * nx + ny * ny)) in *.
    assert (Hd : d * d = nx * nx + ny * ny) by (apply sqrt_sqrt; exact Hq).
    apply sqrt_lem_1; [nra | exact Hs |].
    replace (x prev + nx * (seg / d) - x prev) with (nx * (seg / d)) by ring.
    replace (y prev + ny * (seg / d) - y prev) with (ny * (seg / d)) by ring.
    transitivity ((nx * nx + ny * ny) * (seg / d) * (seg / d)); [|ring].
    rewrite <- Hd. field. exact H0.
Qed.

Lemma backwardChain_links (seg : R) (prev : t) (ns : list t) :
  0 <= seg -> links_ok seg (prev :: backwardChain seg prev ns).
Proof.
  intros Hs. revert prev.
  induction ns as [|n ns IH]; intros prev; simpl; [exact I|].
  split; [apply placeFrom_dist; exact Hs | apply IH].
Qed.

Lemma backwardReach_links (seg ax ay : R) (ns : list t) :
  0 <= seg -> links_ok seg (backwardReach seg ax ay ns).
Proof.
  intros Hs. destruct ns as [|n ns]; simpl; [exact I|].
  apply backwardChain_links; exact Hs.
Qed.

Lemma iterRope_links (k : nat) (seg ax ay tx ty : R) (ns : list t) :
  0 <= seg -> links_ok seg (iterRope (S k) seg ax ay tx ty ns).
Proof. intros Hs. apply backwardReach_links; exact Hs. Qed.

(** A two-node rope stays a two-node rope. *)
Lemma iterRope_two (k : nat) (seg ax ay tx ty : R) (a b : t) :
  exists a' b', iterRope k seg ax ay tx ty [a; b] = [a'; b'].
Proof.
  induction k as [|k IH]; [exists a, b; reflexivity|].
  destruct IH as [a' [b' E]].
  cbn [iterRope]. rewrite E.
  eexists; eexists; reflexivity.
Qed.

(** With the target on the anchor, one round puts both nodes of a
    two-node rope on the anchor. *)
Lemma ropeIter_two_collapse (seg ax ay : R) (a b : t) :
  exists a' b', ropeIter seg ax ay ax ay [a; b] = [a'; b'] /\
    x a' = ax /\ y a' = ay /\ x b' = ax /\ y b' = ay.
Proof.
  eexists; eexists; split; [reflexivity|].
  unfold placeFrom, setXY; simpl.
  repeat split; ring.
Qed.

(** [addTailSegment] always succeeds on two nodes or more. *)
Lemma addTailSegment_some (seg : R) (ns : list t) :
  (2 <= length ns)%nat -> exists n, addTailSegment seg ns = Some (ns ++ [n]).
Proof.
  intros Hl. unfold addTailSegment.
  pose proof (length_rev ns) as Hr.
  destruct (rev ns) as [|b [|a r]]; simpl in Hr; try lia.
  eexists; reflexivity.
Qed.

Lemma growWhile_spec (fuel target : nat) (seg : R) (ns : list t) :
  (2 <= length ns)%nat -> (target <= fuel + length ns)%nat ->
  exists ext, growWhile fuel target seg ns = Some (ns ++ ext) /\
    length (ns ++ ext) = Nat.max (length ns) target.
Proof.
  revert ns. induction fuel as [|fuel IH]; intros ns Hl Ht; simpl.
  - exists []. rewrite app_nil_r. split; [reflexivity | lia].
  - destruct (Nat.ltb_spec (length ns) target) as [Hlt | Hge].
    + destruct (addTailSegment_some seg ns Hl) as [n Hn]. rewrite Hn.
      destruct (IH (ns ++ [n])) as [ext [E L]];
        [rewrite length_app; simpl; lia | rewrite length_app; simpl; lia |].
      exists (n :: ext). rewrite E, <- app_assoc. split; [reflexivity|].
      rewrite <- app_assoc in L. rewrite !length_app in *. simpl in *. lia.
    + exists []. rewrite app_nil_r. split; [reflexivity | lia].
Qed.

Lemma clamp_SEG_LEN_init :
  clamp SEG_LEN_init SEG_LEN_MIN SEG_LEN_MAX = SEG_LEN_init.
Proof.
  unfold clamp, SEG_LEN_init, SEG_LEN_MIN, SEG_LEN_MAX.
  rewrite Rmin_right by lra. rewrite Rmax_right by lra. reflexivity.
Qed.

Lemma floor_INR (n : nat) : floor (INR n) = Z.of_nat n.
Proof. unfold floor. apply Int_part_INR. Qed.

(** C4 (amended): after [satisfyRope], every adjacent pair of nodes is
    exactly [SEG_LEN] apart, or at distance [0]: the last backward reach
    places each node at [SEG_LEN] from its predecessor, except a node that
    coincided with its predecessor, which the [|| 1e-6] guard leaves on
    it. *)
Theorem satisfyRope_links_exact (seg anchorX anchorY : R) (nodes ns : list t) :
  0 <= seg ->
  satisfyRope seg anchorX anchorY nodes = Some ns ->
  links_ok seg ns.
Proof.
  intros Hs E. unfold satisfyRope in E.
  destruct nodes as [|n0 [|n1 rest]]; [discriminate | |].
  - injection E as <-. exact I.
  - injection E as <-. unfold ROPE_ITERS. apply (iterRope_links 4); exact Hs.
Qed.

Lemma satisfyRope_links_exact_witness :
  exists ns, satisfyRope 10 0 0 [mk 0 0 0 0; mk 3 4 3 4; mk 0 20 0 20] = Some ns
             /\ links_ok 10 ns.
Proof.
  eexists. split; [reflexivity|].
  apply (satisfyRope_links_exact 10 0 0 [mk 0 0 0 0; mk 3 4 3 4; mk 0 20 0 20]);
    [lra | reflexivity].
Defined.

(** C4 (counterexample): a two-node rope whose predicted tail lies on the
    new anchor ends the solve with both nodes on the anchor, at distance
    [0] instead of within 2% of [SEG_LEN = 10]. *)
Lemma satisfyRope_collapse :
  exists ns,
    satisfyRope SEG_LEN_init 10 0 [mk 0 0 0 0; mk 10 0 10 0] = Some ns /\
    length ns = 2%nat /\
    node_dist (nth 0 ns zero) (nth 1 ns zero) = 0 /\
    (2 / 100) * SEG_LEN_init < Rabs (node_dist (nth 0 ns zero) (nth 1 ns zero) - SEG_LEN_init).
Proof.
  exists (iterRope 5 SEG_LEN_init 10 0 10 0 [mk 10 0 10 0; mk 10 0 10 0]).
  split; [reflexivity|].
  change (iterRope 5 SEG_LEN_init 10 0 10 0 [mk 10 0 10 0; mk 10 0 10 0])
    with (ropeIter SEG_LEN_init 10 0 10 0
            (iterRope 4 SEG_LEN_init 10 0 10 0 [mk 10 0 10 0; mk 10 0 10 0])).
  destruct (iterRope_two 4 SEG_LEN_init 10 0 10 0 (mk 10 0 10 0) (mk 10 0 10 0))
    as [a [b E]].
  rewrite E.
  destruct (ropeIter_two_collapse SEG_LEN_init 10 0 a b) as [a' [b' [E' [Ha1 [Ha2 [Hb1 Hb2]]]]]].
  rewrite E'. simpl.
  assert (Hd : node_dist a' b' = 0).
  { unfold node_dist, hypot. rewrite Ha1, Ha2, Hb1, Hb2.
    replace (_ * _ + _ * _) with 0 by ring. apply sqrt_0. }
  rewrite Hd. split; [reflexivity|]. split; [reflexivity|].
  unfold SEG_LEN_init. rewrite Rabs_left by lra. lra.
Qed.

(** C7 (amended): the target count is [max(1, floor(L / SEG_LEN)) + 1], at
    least [2]; [SEG_LEN] stays [10]; and one call of
    [ensureRopeForLength] on a rope of two nodes or more appends nodes at
    the end, never removing any, until the count reaches the target, all
    in that one call. *)
Theorem ensureRope_grows (SEG_LEN L : R) (nodes : list t) :
  clamp SEG_LEN_init SEG_LEN_MIN SEG_LEN_MAX = SEG_LEN_init /\
  targetCountForLength SEG_LEN L = (Z.max 1 (floor (L / SEG_LEN)) + 1)%Z /\
  (2 <= targetCountForLength SEG_LEN L)%Z /\
  ((2 <= length nodes)%nat ->
   exists ext,
     ensureRopeForLength SEG_LEN L nodes
       = Some (clamp SEG_LEN SEG_LEN_MIN SEG_LEN_MAX, nodes ++ ext) /\
     length (nodes ++ ext)
       = Nat.max (length nodes)
           (Z.to_nat (targetCountForLength (clamp SEG_LEN SEG_LEN_MIN SEG_LEN_MAX) L))).
Proof.
  split; [apply clamp_SEG_LEN_init|].
  split; [reflexivity|].
  split; [unfold targetCountForLength; lia|].
  intros Hl. unfold ensureRopeForLength.
  set (s := clamp SEG_LEN SEG_LEN_MIN SEG_LEN_MAX).
  set (target := Z.to_nat (targetCountForLength s L)).
  destruct (growWhile_spec target target s nodes Hl) as [ext [E Len]]; [lia|].
  rewrite E. exists ext. split; [reflexivity | exact Len].
Qed.

Lemma ensureRope_grows_witness :
  (2 <= length [mk 0 0 0 0; mk 10 0 10 0])%nat /\
  exists ext,
    ensureRopeForLength 10 50 [mk 0 0 0 0; mk 10 0 10 0]
      = Some (clamp 10 SEG_LEN_MIN SEG_LEN_MAX, [mk 0 0 0 0; mk 10 0 10 0] ++ ext).
Proof.
  split; [simpl; lia|].
  destruct (proj2 (proj2 (proj2 (ensureRope_grows 10 50 [mk 0 0 0 0; mk 10 0 10 0]))))
    as [ext [E _]]; [simpl; lia|].
  exists ext. exact E.
Defined.

(** C7 (counterexample): for [L = 0] the target is [2] nodes, not
    [floor(0 / 10) + 1 = 1]; and a two-node rope reaching [L = 50] goes to
    [6] nodes in a single call, not one node per tick. *)
Lemma target_two_and_batch_growth :
  targetCountForLength SEG_LEN_init 0 = 2%Z /\
  (floor (0 / SEG_LEN_init) + 1)%Z = 1%Z /\
  exists ns,
    ensureRopeForLength SEG_LEN_init 50 [mk 0 0 0 0; mk 10 0 10 0]
      = Some (SEG_LEN_init, ns) /\ length ns = 6%nat.
Proof.
  assert (F0 : floor (0 / SEG_LEN_init) = 0%Z).
  { replace (0 / SEG_LEN_init) with (INR 0) by (unfold SEG_LEN_init; simpl; field).
    rewrite floor_INR. reflexivity. }
  assert (F5 : floor (50 / SEG_LEN_init) = 5%Z).
  { replace (50 / SEG_LEN_init) with (INR 5) by (unfold SEG_LEN_init; simpl; field).
    rewrite floor_INR. reflexivity. }
  split; [unfold targetCountForLength; rewrite F0; reflexivity|].
  split; [rewrite F0; reflexivity|].
  unfold ensureRopeForLength. rewrite clamp_SEG_LEN_init.
  unfold targetCountForLength. rewrite F5. change (Z.to_nat (Z.max 1 5 + 1)) with 6%nat.
  destruct (growWhile_spec 6 6 SEG_LEN_init [mk 0 0 0 0; mk 10 0 10 0])
    as [ext [E Len]]; [simpl; lia | simpl; lia |].
  rewrite E. eexists. split; [reflexivity|]. rewrite Len. reflexivity.
Qed.

(** C8: the rope prediction step and the constraint solve write only the
    node array; the body, the spool state and the cooldown are left as
    they were. *)
Theorem ropeUpdate_frame (dt anchorX anchorY : R) (st st' : world) :
  ropeUpdate dt anchorX anchorY st = Some st' ->
  ball st' = ball st /\ L_free st' = L_free st /\
  exitAngle st' = exitAngle st /\ SEG_LEN st' = SEG_LEN st /\
  ropeInited st' = ropeInited st /\ hitCooldown st' = hitCooldown st.
Proof.
  unfold ropeUpdate.
  destruct (satisfyRope _ _ _ _) as [ns|]; [|discriminate].
  intros E. injection E as <-. simpl.
  repeat split; reflexivity.
Qed.

Lemma ropeUpdate_frame_witness :
  exists st',
    ropeUpdate (1 / 60) 0 0
      (mkWorld (mkBody 100 100 20 0 0 1) 0 0 10 [mk 0 0 0 0; mk 10 2 10 2] true 0)
      = Some st' /\
    ball st' = mkBody 100 100 20 0 0 1.
Proof.
  eexists. split; [reflexivity|].
  apply (ropeUpdate_frame (1 / 60) 0 0
           (mkWorld (mkBody 100 100 20 0 0 1) 0 0 10 [mk 0 0 0 0; mk 10 2 10 2] true 0)).
  reflexivity.
Defined.

End IKRopeFacts.

(* ================================================================== *)
(** * Further properties of the impulse variant *)
(* ================================================================== *)

Module RigidBodyMore.
Import RigidBody RigidBodyTick.
Local Open Scope Q_scope.
Import Stdlib.micromega.Lqa.

Lemma rb_Qltb_true a b : Qltb a b = true -> a < b.
Proof.
  unfold Qltb. intros H. apply negb_true_iff in H.
  apply Qnot_le_lt. intros Hc. apply Qle_bool_iff in Hc. congruence.
Qed.

Lemma rb_Qltb_false a b : Qltb a b = false -> b <= a.
Proof.
  unfold Qltb. intros H. apply negb_false_iff in H. apply Qle_bool_iff. exact H.
Qed.

Lemma rb_vn_formula nx ny b : contact_vn nx ny b == vx b * nx + vy b * ny.
Proof. unfold contact_vn, contactVelocity. simpl. ring. Qed.

Lemma rb_kN_one nx ny : contact_kN nx ny == 1.
Proof.
  unfold contact_kN.
  setoid_replace (cross2 (- nx * radius) (- ny * radius) nx ny) with 0
    by (unfold cross2; ring).
  unfold mass, inertia, radius. vm_compute. reflexivity.
Qed.

Lemma rb_tick_dt_le now last : tick_dt now last <= 0.033.
Proof.
  unfold tick_dt, clamp. apply Q.max_lub; [lra | apply Q.le_min_l].
Qed.

Lemma rb_tick_dt_nonneg now last : 0 <= tick_dt now last.
Proof. unfold tick_dt, clamp. apply Q.le_max_l. Qed.

Lemma rb_clamp_bounds v lo hi : lo <= hi -> lo <= clamp v lo hi <= hi.
Proof.
  intros H. unfold clamp. split; [apply Q.le_max_l|].
  apply Q.max_lub; [exact H | apply Q.le_min_l].
Qed.

(** With the cooldown still running the pointer stage only records the
    sample. *)
Lemma rb_pointerHit_idle hypot now hc m lm b :
  Qle_bool hc 0 = false ->
  pointerHit hypot now hc m lm b = (b, LastMouse.mk (Mouse.x m) (Mouse.y m) now, hc).
Proof.
  intros H. unfold pointerHit. cbv zeta. rewrite H, andb_false_r. reflexivity.
Qed.


Lemma rb_pointerHit_y hypot now hc m lm b :
  y (fst (fst (pointerHit hypot now hc m lm b))) = y b.
Proof.
  unfold pointerHit. cbv zeta.
  destruct (_ && _); reflexivity.
Qed.

Lemma rb_tick_nohit hypot rnd w h now st :
  0.033 < hitCooldown st ->
  ball (tick hypot rnd w h now st)
    = offscreenReset rnd w h (advance (tick_dt now (last st)) w h (ball st)) /\
  hitCooldown (tick hypot rnd w h now st)
    = Qmax 0 (hitCooldown st - tick_dt now (last st)) /\
  last (tick hypot rnd w h now st) = now.
Proof.
  intros Hc. unfold tick. cbv zeta.
  pose proof (rb_tick_dt_le now (last st)) as Hdt.
  assert (Hb : Qle_bool (Qmax 0 (hitCooldown st - tick_dt now (last st))) 0 = false).
  { destruct (Qle_bool _ 0) eqn:E; [|reflexivity].
    apply Qle_bool_iff in E.
    pose proof (Q.le_max_r 0 (hitCooldown st - tick_dt now (last st))). lra. }
  rewrite (rb_pointerHit_idle _ _ _ _ _ _ Hb). simpl.
  split; [reflexivity | split; reflexivity].
Qed.

(** ** Contact response *)

(** An approaching contact leaves with its normal velocity reversed and
    scaled by the restitution [e]: the contact point lies on the normal,
    so neither the spin nor the friction impulse changes the normal
    velocity.  For the four wall normals the source uses, a friction
    impulse inside the Coulomb cone stops the contact point's slip
    entirely. *)
Theorem resolvePlaneContact_restitution nx ny px py e mu b :
  nx * nx + ny * ny == 1 ->
  contact_vn nx ny b < 0 ->
  contact_vn nx ny (resolvePlaneContact nx ny px py e mu b)
    == - e * contact_vn nx ny b /\
  (In (nx, ny) [(0, -1); (0, 1); (1, 0); (-1, 0)] ->
   Qabs (contact_Jt nx ny e b) <= mu * Qabs (contact_Jn nx ny e b) ->
   let b' := resolvePlaneContact nx ny px py e mu b in
   fst (contactVelocity b'.(vx) b'.(vy) b'.(spin) (- nx * radius) (- ny * radius)) * (- ny)
   + snd (contactVelocity b'.(vx) b'.(vy) b'.(spin) (- nx * radius) (- ny * radius)) * nx
   == 0).
Proof.
  intros Hn Hv.
  assert (Hb : Qle_bool 0 (contact_vn nx ny b) = false).
  { destruct (Qle_bool 0 _) eqn:E; [|reflexivity].
    apply Qle_bool_iff in E. lra. }
  split.
  - rewrite rb_vn_formula.
    unfold resolvePlaneContact. rewrite Hb. cbv zeta.
    set (J := contact_JtClamped nx ny e mu b).
    unfold after_normal. cbv zeta.
    set (Jn := contact_Jn nx ny e b).
    unfold applyImpulseAtPoint. simpl.
    transitivity ((vx b * nx + vy b * ny) + Jn * (nx * nx + ny * ny));
      [unfold mass; field|].
    rewrite Hn, <- rb_vn_formula.
    unfold Jn, contact_Jn. rewrite rb_kN_one. ring.
  - intros Hin Hcone. cbv zeta.
    unfold resolvePlaneContact. rewrite Hb. cbv zeta.
    assert (HJ : contact_JtClamped nx ny e mu b == contact_Jt nx ny e b).
    { unfold contact_JtClamped, clamp. fold (contact_maxF nx ny e mu b).
      unfold contact_maxF in *.
      apply Qabs_Qle_condition in Hcone. destruct Hcone as [H1 H2].
      rewrite Q.min_r by exact H2. rewrite Q.max_r by exact H1. reflexivity. }
    set (J := contact_JtClamped nx ny e mu b) in *.
    set (b1 := after_normal nx ny e b) in *.
    unfold applyImpulseAtPoint, contactVelocity, cross2; simpl.
    rewrite HJ. unfold contact_Jt, contact_vt2. fold b1. cbv zeta.
    unfold contact_kT, contactVelocity, cross2; simpl.
    unfold mass, inertia, radius.
    simpl in Hin.
    destruct Hin as [E | [E | [E | [E | []]]]]; injection E as <- <-.
    all: unfold mass, inertia, radius, cross2; field.
Qed.

Lemma resolvePlaneContact_restitution_witness :
  (0 * 0 + (-1) * (-1) == 1) /\
  contact_vn 0 (-1) (mkBall 100 360 30 200 0 5) < 0 /\
  contact_vn 0 (-1) (resolvePlaneContact 0 (-1) 100 360 rest muGround
                       (mkBall 100 360 30 200 0 5))
    == - rest * contact_vn 0 (-1) (mkBall 100 360 30 200 0 5).
Proof.
  assert (Hn : 0 * 0 + (-1) * (-1) == 1) by (vm_compute; reflexivity).
  assert (Hv : contact_vn 0 (-1) (mkBall 100 360 30 200 0 5) < 0)
    by (vm_compute; reflexivity).
  split; [exact Hn|]. split; [exact Hv|].
  exact (proj1 (resolvePlaneContact_restitution 0 (-1) 100 360 rest muGround
                  (mkBall 100 360 30 200 0 5) Hn Hv)).
Defined.

(** A single contact with a unit normal, restitution in [[0, 1]] and a
    non-negative friction coefficient, and the whole boundary resolution
    of a tick, never increase the kinetic energy (translation plus
    rotation). *)
Theorem contact_kinetic_nonincreasing nx ny px py e mu b w h :
  nx * nx + ny * ny == 1 -> 0 <= e <= 1 -> 0 <= mu ->
  kinetic (resolvePlaneContact nx ny px py e mu b) <= kinetic b /\
  kinetic (collide_bounds w h b) <= kinetic b.
Proof.
  intros Hn He Hmu. split.
  - apply RigidBodyFacts.resolve_kinetic; assumption.
  - apply RigidBodyFacts.collide_bounds_kinetic.
Qed.

Lemma contact_kinetic_nonincreasing_witness :
  kinetic (resolvePlaneContact 1 0 0 100 wallRest muWall (mkBall 30 100 (-300) 50 0 2))
    <= kinetic (mkBall 30 100 (-300) 50 0 2).
Proof.
  refine (proj1 (contact_kinetic_nonincreasing 1 0 0 100 wallRest muWall
                   (mkBall 30 100 (-300) 50 0 2) 800 600 _ _ _)).
  - vm_compute. reflexivity.
  - unfold wallRest. split; [vm_compute; discriminate | vm_compute; discriminate].
  - unfold muWall. vm_compute. discriminate.
Defined.

(** ** Pointer hit *)

(** The pointer stage always stores the new sample.  It either leaves the
    body and the cooldown alone, exactly when the pointer is not within
    [radius + 2] or the cooldown is still running, or it sets the
    cooldown to [0.09] and applies at the surface point facing the
    pointer an impulse [-n * base + (0, -120)] with [base] in
    [[220, 1220]]: position and angle stay, and the spin changes by
    [120 * radius * nx / inertia], from the upward bias alone. *)
Theorem pointerHit_effect hypot now hc m lm b :
  let dist := hypot (Mouse.x m - x b) (Mouse.y m - y b) in
  let dd := if Qeq_bool dist 0 then 1 else dist in
  let nx := (Mouse.x m - x b) / dd in
  let ny := (Mouse.y m - y b) / dd in
  let r := pointerHit hypot now hc m lm b in
  snd (fst r) = LastMouse.mk (Mouse.x m) (Mouse.y m) now /\
  ((fst (fst r) = b /\ snd r = hc /\ ~ (dist < radius + 2 /\ hc <= 0)) \/
   (dist < radius + 2 /\ hc <= 0 /\ snd r = 0.09 /\
    x (fst (fst r)) = x b /\ y (fst (fst r)) = y b /\
    angle (fst (fst r)) = angle b /\
    exists base, 220 <= base <= 1220 /\
      vx (fst (fst r)) == vx b - nx * base /\
      vy (fst (fst r)) == vy b - ny * base - 120 /\
      spin (fst (fst r)) == spin b + 120 * radius / inertia * nx)).
Proof.
  cbv zeta. unfold pointerHit. cbv zeta.
  set (dist := hypot (Mouse.x m - x b) (Mouse.y m - y b)).
  set (dd := if Qeq_bool dist 0 then 1 else dist).
  destruct (Qltb dist (radius + 2) && Qle_bool hc 0) eqn:E.
  - apply andb_true_iff in E as [E1 E2].
    apply rb_Qltb_true in E1. apply Qle_bool_iff in E2.
    simpl. split; [reflexivity|]. right.
    split; [exact E1|]. split; [exact E2|].
    split; [reflexivity|]. split; [reflexivity|]. split; [reflexivity|].
    split; [reflexivity|].
    set (base := 420 + clamp _ (-200) 800).
    exists base. split.
    + unfold base. pose proof (rb_clamp_bounds
        (- ((Mouse.x m - x b) / dd * ((Mouse.x m - LastMouse.x lm)
              / Qmax 0.001 ((now - LastMouse.t lm) / 1000))
            + (Mouse.y m - y b) / dd * ((Mouse.y m - LastMouse.y lm)
              / Qmax 0.001 ((now - LastMouse.t lm) / 1000))) * 0.6)
        (-200) 800 ltac:(vm_compute; discriminate)).
      lra.
    + assert (Hdd : ~ dd == 0).
      { unfold dd. destruct (Qeq_bool dist 0) eqn:Ed.
        - vm_compute. discriminate.
        - intros Hc. apply Qeq_bool_iff in Hc. congruence. }
      unfold applyImpulseAtPoint, cross2, mass. simpl.
      split; [field; exact Hdd|]. split; [field; exact Hdd|].
      unfold inertia, mass, radius. field; exact Hdd.
  - simpl. split; [reflexivity|]. left.
    split; [reflexivity|]. split; [reflexivity|].
    intros [H1 H2].
    apply andb_false_iff in E as [E | E].
    + apply rb_Qltb_false in E. lra.
    + apply Qle_bool_iff in H2. congruence.
Qed.

(** ** Ticks *)

(** A tick that applies a hit leaves the cooldown at [0.09]; since a tick
    lasts at most [0.033] s, the next two ticks apply no hit, wherever the
    pointer moves in between: their body is the one given by gravity,
    collisions and the off-screen reset alone. *)
Theorem hit_cooldown_two_ticks hypot rnd1 w1 h1 now1 m1 rnd2 w2 h2 now2 st :
  hitCooldown st = 0.09 ->
  let st1 := tick hypot rnd1 w1 h1 now1 st in
  let st2 := tick hypot rnd2 w2 h2 now2 (withMouse st1 m1) in
  ball st1 = offscreenReset rnd1 w1 h1
               (advance (tick_dt now1 (last st)) w1 h1 (ball st)) /\
  ball st2 = offscreenReset rnd2 w2 h2
               (advance (tick_dt now2 now1) w2 h2 (ball st1)).
Proof.
  intros Hc. cbv zeta.
  assert (H1 : 0.033 < hitCooldown st) by (rewrite Hc; vm_compute; reflexivity).
  destruct (rb_tick_nohit hypot rnd1 w1 h1 now1 st H1) as [Eb [Ec El]].
  split; [exact Eb|].
  assert (H2 : 0.033 < hitCooldown (withMouse (tick hypot rnd1 w1 h1 now1 st) m1)).
  { unfold withMouse. simpl. rewrite Ec, Hc.
    pose proof (rb_tick_dt_le now1 (last st)).
    pose proof (Q.le_max_r 0 (0.09 - tick_dt now1 (last st))). lra. }
  destruct (rb_tick_nohit hypot rnd2 w2 h2 now2 _ H2) as [Eb2 _].
  rewrite Eb2. unfold withMouse. simpl. rewrite El. reflexivity.
Qed.

Lemma hit_cooldown_two_ticks_witness :
  hitCooldown (mkState (mkBall 100 100 0 0 0 0) (Mouse.mk 100 100 false)
                 (LastMouse.mk 100 100 0) 0.09 0) = 0.09 /\
  ball (tick (fun a b => Qabs a + Qabs b) 0 800 600 16
          (mkState (mkBall 100 100 0 0 0 0) (Mouse.mk 100 100 false)
             (LastMouse.mk 100 100 0) 0.09 0))
  = offscreenReset 0 800 600 (advance (tick_dt 16 0) 800 600 (mkBall 100 100 0 0 0 0)).
Proof.
  split; [reflexivity|].
  exact (proj1 (hit_cooldown_two_ticks (fun a b => Qabs a + Qabs b) 0 800 600 16
    (Mouse.mk 100 100 false) 0 800 600 32
    (mkState (mkBall 100 100 0 0 0 0) (Mouse.mk 100 100 false)
       (LastMouse.mk 100 100 0) 0.09 0) eq_refl)).
Defined.



(** On a canvas of non-negative height the body never ends a tick more
    than [400] below the floor line: deeper, the off-screen reset puts
    it back at a quarter of the height, and the pointer stage does not
    move it. *)
Theorem tick_depth_bounded hypot rnd w h now st :
  0 <= h ->
  y (ball (tick hypot rnd w h now st)) - radius <= h + 400.
Proof.
  intros Hh. unfold tick. cbv zeta.
  set (b := offscreenReset rnd w h _).
  destruct (pointerHit hypot now _ (mouse st) (lastMouse st) b) as [[b' lm] hc] eqn:E.
  simpl.
  assert (Hy : y b' = y b).
  { pose proof (rb_pointerHit_y hypot now (Qmax 0 (hitCooldown st - tick_dt now (last st)))
                  (mouse st) (lastMouse st) b) as H.
    rewrite E in H. exact H. }
  rewrite Hy. unfold b, offscreenReset.
  destruct (Qltb (h + 400) _) eqn:Er.
  - simpl. unfold radius. lra.
  - apply rb_Qltb_false in Er. exact Er.
Qed.

Lemma tick_depth_bounded_witness :
  0 <= 600 /\
  y (ball (tick (fun a b => Qabs a + Qabs b) 0 800 600 16
      (mkState (mkBall 100 2000 0 0 0 0) (Mouse.mk 0 0 false)
         (LastMouse.mk 0 0 0) 0 0))) - radius <= 600 + 400.
Proof.
  assert (H : 0 <= 600) by (vm_compute; discriminate).
  split; [exact H|].
  exact (tick_depth_bounded (fun a b => Qabs a + Qabs b) 0 800 600 16
    (mkState (mkBall 100 2000 0 0 0 0) (Mouse.mk 0 0 false)
       (LastMouse.mk 0 0 0) 0 0) H).
Defined.

End RigidBodyMore.

(* ================================================================== *)
(** * Properties of the clamp variant ([part_000]) *)
(* ================================================================== *)

Module ClampBallFacts.
Import ClampBall.
Local Open Scope Q_scope.
Import Stdlib.micromega.Lqa.

Lemma cb_Qltb_true a b : Qltb a b = true -> a < b.
Proof.
  unfold Qltb. intros H. apply negb_true_iff in H.
  apply Qnot_le_lt. intros Hc. apply Qle_bool_iff in Hc. congruence.
Qed.

Lemma cb_Qltb_false a b : Qltb a b = false -> b <= a.
Proof.
  unfold Qltb. intros H. apply negb_false_iff in H. apply Qle_bool_iff. exact H.
Qed.

Ltac cb_case :=
  match goal with
  | |- context [Qltb ?a ?b] =>
      let E := fresh "E" in
      destruct (Qltb a b) eqn:E;
      [apply cb_Qltb_true in E | apply cb_Qltb_false in E]
  end.

Lemma cb_floor_pos h b :
  x (collideFloor h b) = x b /\ y (collideFloor h b) <= h - radius.
Proof.
  unfold collideFloor. cb_case; simpl; split; [reflexivity | lra | reflexivity | lra].
Qed.

Lemma cb_ceiling_pos h b :
  2 * radius <= h -> y b <= h - radius ->
  x (collideCeiling b) = x b /\ radius <= y (collideCeiling b) <= h - radius.
Proof.
  intros Hh Hy. unfold collideCeiling. unfold radius in *.
  cb_case; simpl; (split; [reflexivity | lra]).
Qed.

Lemma cb_walls_pos w b :
  2 * radius <= w ->
  y (collideWalls w b) = y b /\ radius <= x (collideWalls w b) <= w - radius.
Proof.
  intros Hw. unfold collideWalls. unfold radius in *.
  cb_case; simpl; [split; [reflexivity | lra]|].
  cb_case; simpl; (split; [reflexivity | lra]).
Qed.

Lemma cb_collide_pos w h b :
  2 * radius <= w -> 2 * radius <= h ->
  radius <= x (collide w h b) <= w - radius /\
  radius <= y (collide w h b) <= h - radius.
Proof.
  intros Hw Hh. unfold collide.
  destruct (cb_floor_pos h b) as [_ H1].
  destruct (cb_ceiling_pos h (collideFloor h b) Hh H1) as [_ H2].
  destruct (cb_walls_pos w (collideCeiling (collideFloor h b)) Hw) as [E3 H3].
  rewrite E3. split; assumption.
Qed.

Lemma cb_pointerHit_pos hypot now hc m lm b :
  x (fst (fst (pointerHit hypot now hc m lm b))) = x b /\
  y (fst (fst (pointerHit hypot now hc m lm b))) = y b.
Proof.
  unfold pointerHit. cbv zeta. destruct (_ && _); split; reflexivity.
Qed.

Lemma cb_tick_ball hypot rnd w h now st :
  sball (tick hypot rnd w h now st)
  = fst (fst (pointerHit hypot now
       (Qmax 0 (hitCooldown st - clamp ((now - last st) / 1000) 0 0.033))
       (mouse st) (lastMouse st)
       (offscreenReset rnd w h (collide w h
          (integrate (clamp ((now - last st) / 1000) 0 0.033) (sball st)))))).
Proof.
  unfold tick. cbv zeta.
  destruct (pointerHit _ _ _ _ _ _) as [[b lm] hc]. reflexivity.
Qed.

(** In the clamp variant the collisions put the centre back inside the
    canvas shrunk by the radius on every side, whatever the state before
    the tick, as long as the canvas is at least one diameter wide and
    high; the pointer stage changes only the velocity, so every tick
    ends there, and the off-screen reset never fires. *)
Theorem clamp_tick_contained hypot rnd w h now st :
  2 * radius <= w -> 2 * radius <= h ->
  let st' := tick hypot rnd w h now st in
  radius <= x (sball st') <= w - radius /\
  radius <= y (sball st') <= h - radius /\
  forall dt, offscreenReset rnd w h (collide w h (integrate dt (sball st)))
             = collide w h (integrate dt (sball st)).
Proof.
  intros Hw Hh. cbv zeta.
  assert (Hoff : forall b, offscreenReset rnd w h (collide w h b) = collide w h b).
  { intros b. unfold offscreenReset.
    destruct (cb_collide_pos w h b Hw Hh) as [_ [_ Hy]].
    destruct (Qltb (h + 400) _) eqn:E; [|reflexivity].
    apply cb_Qltb_true in E. unfold radius in *. lra. }
  rewrite cb_tick_ball, Hoff.
  destruct (cb_pointerHit_pos hypot now (Qmax 0 (hitCooldown st
              - clamp ((now - last st) / 1000) 0 0.033)) (mouse st) (lastMouse st)
              (collide w h (integrate (clamp ((now - last st) / 1000) 0 0.033) (sball st))))
    as [Ex Ey].
  rewrite Ex, Ey.
  destruct (cb_collide_pos w h (integrate (clamp ((now - last st) / 1000) 0 0.033)
              (sball st)) Hw Hh) as [Hx Hy].
  split; [exact Hx|]. split; [exact Hy|].
  intros dt. apply Hoff.
Qed.

Lemma clamp_tick_contained_witness :
  (2 * radius <= 800 /\ 2 * radius <= 600) /\
  radius <= x (sball (tick (fun a b => Qabs a + Qabs b) 0 800 600 16
      (mkState (mkBall 5000 (-70) 300 (-900)) (Mouse.mk 0 0 false)
         (LastMouse.mk 0 0 0) 0 0))) <= 800 - radius.
Proof.
  assert (Hw : 2 * radius <= 800) by (vm_compute; discriminate).
  assert (Hh : 2 * radius <= 600) by (vm_compute; discriminate).
  split; [split; assumption|].
  exact (proj1 (clamp_tick_contained (fun a b => Qabs a + Qabs b) 0 800 600 16
    (mkState (mkBall 5000 (-70) 300 (-900)) (Mouse.mk 0 0 false)
       (LastMouse.mk 0 0 0) 0 0) Hw Hh)).
Defined.

Lemma cb_scale v k : Qabs k <= 1 -> Qabs (v * k) <= Qabs v.
Proof.
  intros Hk. rewrite Qabs_Qmult.
  rewrite Qmult_comm.
  apply Qle_trans with (1 * Qabs v); [|lra].
  apply Qmult_le_compat_r; [exact Hk | apply Qabs_nonneg].
Qed.

Definition cb_damped (f : ball -> ball) : Prop :=
  forall b, Qabs (vx (f b)) <= Qabs (vx b) /\ Qabs (vy (f b)) <= Qabs (vy b).

Lemma cb_damped_comp f g : cb_damped f -> cb_damped g -> cb_damped (fun b => g (f b)).
Proof.
  intros Hf Hg b. destruct (Hf b), (Hg (f b)). split; eapply Qle_trans; eauto.
Qed.

Lemma cb_floor_damped h : cb_damped (collideFloor h).
Proof.
  intros b. unfold collideFloor. destruct (Qltb _ _); cbn [vx vy]; [|lra].
  split; apply cb_scale; vm_compute; discriminate.
Qed.

Lemma cb_ceiling_damped : cb_damped collideCeiling.
Proof.
  intros b. unfold collideCeiling. destruct (Qltb _ _); cbn [vx vy]; [|lra].
  split; [lra | apply cb_scale; vm_compute; discriminate].
Qed.

Lemma cb_walls_damped w : cb_damped (collideWalls w).
Proof.
  intros b. unfold collideWalls.
  destruct (Qltb _ _); cbn [vx vy]; [|destruct (Qltb _ _); cbn [vx vy]; [|lra]];
    (split; [apply cb_scale; vm_compute; discriminate | lra]).
Qed.

(** The collisions of the clamp variant only damp: neither velocity
    component grows in magnitude (factors [0.98], [0.72] and [0.6]). *)
Theorem clamp_collide_damps w h b :
  Qabs (vx (collide w h b)) <= Qabs (vx b) /\
  Qabs (vy (collide w h b)) <= Qabs (vy b).
Proof.
  exact (cb_damped_comp _ _ (cb_damped_comp _ _ (cb_floor_damped h) cb_ceiling_damped)
           (cb_walls_damped w) b).
Qed.

End ClampBallFacts.

(* ================================================================== *)
(** * Further properties of the Verlet disk variant *)
(* ================================================================== *)

Module DiskChainMore.
Import DiskChain DiskChainInit.
Local Open Scope Q_scope.
Import Stdlib.micromega.Lqa.

(** Two particles with equal coordinates, as numbers. *)
Definition sameParticle (p q : Particle.t) : Prop :=
  Particle.x p == Particle.x q /\ Particle.y p == Particle.y q /\
  Particle.px p == Particle.px q /\ Particle.py p == Particle.py q.

Lemma dc_sameParticle_refl p : sameParticle p p.
Proof. unfold sameParticle. repeat split; reflexivity. Qed.

Lemma dc_sameParticle_trans p q r :
  sameParticle p q -> sameParticle q r -> sameParticle p r.
Proof.
  unfold sameParticle. intros (H1 & H2 & H3 & H4) (G1 & G2 & G3 & G4).
  repeat split; eapply Qeq_trans; eauto.
Qed.

Section Lists.
Context {A : Type}.

Lemma dc_length_set_nth i (v : A) l : length (set_nth i v l) = length l.
Proof. revert i; induction l as [|a l IH]; intros [|i]; simpl; auto. Qed.

Lemma dc_nth_set_nth_eq i (v : A) l d :
  (i < length l)%nat -> nth i (set_nth i v l) d = v.
Proof.
  revert i; induction l as [|a l IH]; intros [|i] H; simpl in *; try lia; auto.
  apply IH. lia.
Qed.

Lemma dc_nth_set_nth_neq i j (v : A) l d :
  j <> i -> nth j (set_nth i v l) d = nth j l d.
Proof.
  revert i j; induction l as [|a l IH]; intros [|i] [|j] H; simpl; auto;
    try congruence.
  all: apply IH; lia.
Qed.

Lemma dc_length_mapi_from {B} (f : nat -> A -> B) k l :
  length (mapi_from f k l) = length l.
Proof. revert k; induction l as [|a l IH]; intros k; simpl; auto. Qed.

Lemma dc_nth_mapi_from {B} (f : nat -> A -> B) k l i d e :
  (i < length l)%nat -> nth i (mapi_from f k l) e = f (k + i)%nat (nth i l d).
Proof.
  revert k i; induction l as [|a l IH]; intros k [|i] H; simpl in *; try lia.
  - rewrite Nat.add_0_r. reflexivity.
  - rewrite (IH (S k) i) by lia. replace (S k + i)%nat with (k + S i)%nat by lia.
    reflexivity.
Qed.

Lemma dc_iterate_last n (f : A -> A) a : iterate (S n) f a = f (iterate n f a).
Proof.
  revert a; induction n as [|n IH]; intros a; [reflexivity|].
  change (iterate (S (S n)) f a) with (iterate (S n) f (f a)).
  rewrite (IH (f a)). reflexivity.
Qed.

Lemma dc_iterate_length n (f : list A -> list A) l :
  (forall l, length (f l) = length l) -> length (iterate n f l) = length l.
Proof.
  intros Hf. revert l; induction n as [|n IH]; intros l; [reflexivity|].
  simpl. rewrite IH. apply Hf.
Qed.

End Lists.

Lemma dc_Qltb_true a b : Qltb a b = true -> a < b.
Proof.
  unfold Qltb. intros H. apply negb_true_iff in H.
  apply Qnot_le_lt. intros Hc. apply Qle_bool_iff in Hc. congruence.
Qed.

Lemma dc_Qltb_false a b : Qltb a b = false -> b <= a.
Proof.
  unfold Qltb. intros H. apply negb_false_iff in H. apply Qle_bool_iff. exact H.
Qed.

(** Case split on an innermost comparison, then reduce the projections. *)
Ltac dc_split_qltb :=
  match goal with
  | |- context [Qltb ?a ?b] =>
      lazymatch a with context [match _ with true => _ | false => _ end] => fail
      | _ => lazymatch b with context [match _ with true => _ | false => _ end] => fail
      | _ =>
      let E := fresh "E" in
      destruct (Qltb a b) eqn:E;
      [apply dc_Qltb_true in E | apply dc_Qltb_false in E];
      cbn [Particle.x Particle.y Particle.px Particle.py] in *
      end end
  end.

Ltac dc_moves :=
  match goal with
  | |- context [match ?c with (_, _) => _ end] => destruct c
  end.

Lemma dc_maybeFreeNext_closed n fc :
  maybeFreeNext n fc =
  if (TOTAL_POINTS - 1 <=? fc)%nat then fc else Nat.min (fc + n) (TOTAL_POINTS - 1).
Proof.
  unfold TOTAL_POINTS. cbn [Nat.sub].
  revert fc; induction n as [|n IH]; intros fc; cbn [maybeFreeNext].
  - destruct (Nat.leb_spec 499 fc); lia.
  - unfold TOTAL_POINTS. cbn [Nat.sub].
    destruct (Nat.leb_spec 499 fc); [reflexivity|].
    rewrite IH. destruct (Nat.leb_spec 499 (S fc)); lia.
Qed.

Section WithHypot.
Variable hypot : Q -> Q -> Q.

Lemma dc_constrainLink_length h fc i pts :
  length (constrainLink hypot h fc i pts) = length pts.
Proof.
  unfold constrainLink. cbv zeta. dc_moves.
  rewrite !dc_length_set_nth. reflexivity.
Qed.

Lemma dc_constrainLink_other h fc i pts j d :
  j <> (i - 1)%nat -> j <> i ->
  nth j (constrainLink hypot h fc i pts) d = nth j pts d.
Proof.
  intros H1 H2. unfold constrainLink. cbv zeta. dc_moves.
  rewrite !dc_nth_set_nth_neq by assumption. reflexivity.
Qed.

Lemma dc_constrainLinks_length h fc todo i pts :
  length (constrainLinks hypot h fc i todo pts) = length pts.
Proof.
  revert i pts; induction todo as [|todo IH]; intros i pts; simpl; [reflexivity|].
  rewrite IH. apply dc_constrainLink_length.
Qed.

Lemma dc_constrainLinks_before h fc todo i pts k d :
  (k + 1 < i)%nat ->
  nth k (constrainLinks hypot h fc i todo pts) d = nth k pts d.
Proof.
  revert i pts; induction todo as [|todo IH]; intros i pts H; simpl; [reflexivity|].
  rewrite IH by lia. apply dc_constrainLink_other; lia.
Qed.

Lemma dc_constrainLinks_split h fc a b i pts :
  constrainLinks hypot h fc i (a + b) pts
  = constrainLinks hypot h fc (i + a) b (constrainLinks hypot h fc i a pts).
Proof.
  revert i pts; induction a as [|a IH]; intros i pts; simpl.
  - rewrite Nat.add_0_r. reflexivity.
  - rewrite IH. replace (S i + a)%nat with (i + S a)%nat by lia. reflexivity.
Qed.

Lemma dc_constrainLinks_one h fc i pts :
  constrainLinks hypot h fc i 1 pts = constrainLink hypot h fc i pts.
Proof. reflexivity. Qed.

(** Link [k] -- [k + 1] leaves a free particle [k] no lower than the
    floor. *)
Lemma dc_constrainLink_clamps_prev h fc k pts :
  (k < fc)%nat -> (S k < length pts)%nat ->
  Particle.y (nth k (constrainLink hypot h fc (S k) pts) Particle.zero) <= h.
Proof.
  intros Hk Hl. unfold constrainLink.
  replace (S k - 1)%nat with k by lia. cbv zeta. dc_moves.
  rewrite dc_nth_set_nth_neq by lia.
  rewrite dc_nth_set_nth_eq by lia.
  rewrite (proj2 (Nat.ltb_lt k fc) Hk). cbn [andb].
  match goal with |- context [Qltb h ?v] => destruct (Qltb h v) eqn:E end;
    cbn [Particle.y].
  - apply Qle_refl.
  - apply dc_Qltb_false in E. exact E.
Qed.

Lemma dc_constrainLink_wound h fc i pts j :
  (1 <= i)%nat -> (fc <= j)%nat ->
  sameParticle (nth j (constrainLink hypot h fc i pts) Particle.zero)
               (nth j pts Particle.zero).
Proof.
  intros Hi Hj.
  destruct (Nat.lt_ge_cases j (length pts)) as [Hl|Hl].
  2:{ rewrite !nth_overflow; [apply dc_sameParticle_refl | lia |].
      rewrite dc_constrainLink_length. lia. }
  destruct (Nat.eq_dec j i) as [->|Hji].
  - unfold constrainLink. cbv zeta.
    rewrite (proj2 (Nat.leb_le fc i) Hj).
    rewrite (proj2 (Nat.ltb_ge i fc) Hj).
    destruct (fc <=? i - 1)%nat; cbn [andb];
      rewrite dc_nth_set_nth_eq by (rewrite dc_length_set_nth; lia);
      unfold sameParticle; cbn [Particle.x Particle.y Particle.px Particle.py];
      repeat split; try reflexivity; ring.
  - destruct (Nat.eq_dec j (i - 1)) as [->|Hj1].
    + unfold constrainLink. cbv zeta.
      rewrite (proj2 (Nat.leb_le fc i) ltac:(lia)).
      rewrite (proj2 (Nat.leb_le fc (i - 1)) Hj).
      rewrite (proj2 (Nat.ltb_ge (i - 1) fc) Hj). cbn [andb].
      rewrite dc_nth_set_nth_neq by lia.
      rewrite dc_nth_set_nth_eq by lia.
      unfold sameParticle; cbn [Particle.x Particle.y Particle.px Particle.py];
        repeat split; try reflexivity; ring.
    + rewrite dc_constrainLink_other by assumption. apply dc_sameParticle_refl.
Qed.

Lemma dc_constrainLinks_wound h fc todo i pts j :
  (1 <= i)%nat -> (fc <= j)%nat ->
  sameParticle (nth j (constrainLinks hypot h fc i todo pts) Particle.zero)
               (nth j pts Particle.zero).
Proof.
  revert i pts; induction todo as [|todo IH]; intros i pts Hi Hj; simpl.
  - apply dc_sameParticle_refl.
  - eapply dc_sameParticle_trans; [apply IH; lia | apply dc_constrainLink_wound; lia].
Qed.

Lemma dc_iterate_wound n h fc m pts j :
  (fc <= j)%nat ->
  sameParticle (nth j (iterate n (constrainLinks hypot h fc 1 m) pts) Particle.zero)
               (nth j pts Particle.zero).
Proof.
  intros Hj. revert pts; induction n as [|n IH]; intros pts; simpl.
  - apply dc_sameParticle_refl.
  - eapply dc_sameParticle_trans; [apply IH | apply dc_constrainLinks_wound; lia].
Qed.

End WithHypot.

(** ** Particles *)

(** On a canvas of non-negative size, one Verlet step of a free
    particle, with its floor, ceiling and wall checks, always leaves it
    inside [[0, w] x [0, h]]. *)
Theorem integrateParticle_in_box w h dt p :
  0 <= w -> 0 <= h ->
  let p' := integrateParticle w h dt p in
  0 <= Particle.x p' <= w /\ 0 <= Particle.y p' <= h.
Proof.
  intros Hw Hh. unfold integrateParticle. cbv zeta.
  cbn [Particle.x Particle.y Particle.px Particle.py].
  repeat dc_split_qltb; lra.
Qed.

Lemma integrateParticle_in_box_witness :
  (0 <= 800 /\ 0 <= 600) /\
  0 <= Particle.x (integrateParticle 800 600 (1 # 60) (Particle.mk 790 590 700 500))
    <= 800.
Proof.
  assert (Hw : 0 <= 800) by (vm_compute; discriminate).
  assert (Hh : 0 <= 600) by (vm_compute; discriminate).
  split; [split; assumption|].
  exact (proj1 (integrateParticle_in_box 800 600 (1 # 60)
                  (Particle.mk 790 590 700 500) Hw Hh)).
Defined.


Definition dc_sim0 : sim :=
  mkSim (mkDisk 400 300 400 300 0 0 false)
        (repeat (Particle.mk 10 20 9 18) 8) 4 (Mouse.mk 0 0 false)
        (LastMouse.mk 0 0 0) 0 0.


(** [setWoundWorldPositions] leaves the free particles alone and puts
    every wound particle [i] (below [TOTAL_POINTS]) at rest on the disk:
    its previous position equals its position, and when [cos] and [sin]
    of the disk angle satisfy [cos^2 + sin^2 = 1] its squared distance to
    the disk centre is that of its local offset [woundLocal[i]]. *)
Theorem setWoundWorldPositions_spec cos sin wl st i :
  (i < length (points st))%nat ->
  let p := nth i (points (setWoundWorldPositions cos sin wl st)) Particle.zero in
  ((i < freeCount st)%nat -> p = nth i (points st) Particle.zero) /\
  ((freeCount st <= i)%nat -> (i < TOTAL_POINTS)%nat ->
   Particle.px p = Particle.x p /\ Particle.py p = Particle.y p /\
   (cos (angle (ball st)) * cos (angle (ball st))
      + sin (angle (ball st)) * sin (angle (ball st)) == 1 ->
    (Particle.x p - x (ball st)) * (Particle.x p - x (ball st))
      + (Particle.y p - y (ball st)) * (Particle.y p - y (ball st))
    == fst (nth i wl (0, 0)) * fst (nth i wl (0, 0))
       + snd (nth i wl (0, 0)) * snd (nth i wl (0, 0)))).
Proof.
  intros Hi. cbv zeta. unfold setWoundWorldPositions. cbn [points freeCount ball].
  rewrite (dc_nth_mapi_from _ 0 _ i Particle.zero) by exact Hi.
  cbn [Nat.add]. split.
  - intros Hf. rewrite (proj2 (Nat.leb_gt (freeCount st) i) Hf). reflexivity.
  - intros Hf Ht.
    rewrite (proj2 (Nat.leb_le (freeCount st) i) Hf),
            (proj2 (Nat.ltb_lt i TOTAL_POINTS) Ht).
    cbn [andb].
    destruct (nth i wl (0, 0)) as [lx ly]. cbn [fst snd Particle.x Particle.y
      Particle.px Particle.py].
    split; [reflexivity|]. split; [reflexivity|].
    intros Hcs.
    set (c := cos (angle (ball st))) in *. set (s := sin (angle (ball st))) in *.
    transitivity ((lx * lx + ly * ly) * (c * c + s * s)); [ring|].
    rewrite Hcs. ring.
Qed.

Lemma setWoundWorldPositions_spec_witness :
  (5 < length (points dc_sim0))%nat /\
  Particle.px (nth 5 (points (setWoundWorldPositions (fun _ => 1) (fun _ => 0)
       [(1, 2); (3, 4); (5, 6); (7, 8); (9, 10); (11, 12)] dc_sim0)) Particle.zero)
  = Particle.x (nth 5 (points (setWoundWorldPositions (fun _ => 1) (fun _ => 0)
       [(1, 2); (3, 4); (5, 6); (7, 8); (9, 10); (11, 12)] dc_sim0)) Particle.zero).
Proof.
  assert (H : (5 < length (points dc_sim0))%nat) by (vm_compute; lia).
  split; [exact H|].
  refine (proj1 (proj2 (setWoundWorldPositions_spec (fun _ => 1) (fun _ => 0)
       [(1, 2); (3, 4); (5, 6); (7, 8); (9, 10); (11, 12)] dc_sim0 5 H) _ _)).
  - vm_compute. lia.
  - vm_compute. lia.
Defined.

(** ** Constraints *)

(** [satisfyConstraints] never moves a wound particle: every particle at
    an index at least [freeCount] keeps its coordinates (as numbers),
    whatever the positions and the [hypot] used. *)
Theorem satisfyConstraints_keeps_wound hypot h st j :
  (freeCount st <= j)%nat ->
  sameParticle (nth j (points (satisfyConstraints hypot h st)) Particle.zero)
               (nth j (points st) Particle.zero).
Proof.
  intros Hj. unfold satisfyConstraints. cbn [points freeCount].
  apply dc_iterate_wound. exact Hj.
Qed.

Lemma satisfyConstraints_keeps_wound_witness :
  (4 <= 6)%nat /\
  sameParticle (nth 6 (points (satisfyConstraints (fun a b => Qabs a + Qabs b) 600
                   dc_sim0)) Particle.zero)
               (nth 6 (points dc_sim0) Particle.zero).
Proof.
  assert (H : (freeCount dc_sim0 <= 6)%nat) by (vm_compute; lia).
  split; [exact H|].
  exact (satisfyConstraints_keeps_wound (fun a b => Qabs a + Qabs b) 600 dc_sim0 6 H).
Defined.

(** After [satisfyConstraints] on the [TOTAL_POINTS] particles, every
    free particle other than the last index lies no lower than the floor
    [h]: the last pass clamps it through the link to its successor, and
    the later links of that pass do not touch it. *)
Theorem satisfyConstraints_free_above_floor hypot h st k :
  length (points st) = TOTAL_POINTS ->
  (k < freeCount st)%nat -> (k < TOTAL_POINTS - 1)%nat ->
  Particle.y (nth k (points (satisfyConstraints hypot h st)) Particle.zero) <= h.
Proof.
  intros Hl Hk Hk'. unfold satisfyConstraints. cbn [points freeCount].
  unfold ROPE_ITERS. rewrite dc_iterate_last.
  set (q := iterate 4 _ (points st)).
  assert (Hq : length q = TOTAL_POINTS).
  { unfold q. rewrite dc_iterate_length; [exact Hl|].
    intros l. apply dc_constrainLinks_length. }
  replace (TOTAL_POINTS - 1)%nat with (k + (1 + (TOTAL_POINTS - 1 - S k)))%nat
    by (unfold TOTAL_POINTS in *; lia).
  rewrite dc_constrainLinks_split, dc_constrainLinks_split.
  rewrite dc_constrainLinks_before by lia.
  rewrite dc_constrainLinks_one.
  change (1 + k)%nat with (S k).
  apply dc_constrainLink_clamps_prev; [exact Hk|].
  rewrite dc_constrainLinks_length. unfold TOTAL_POINTS in *. lia.
Qed.

Definition dc_sim500 : sim :=
  mkSim (mkDisk 400 300 400 300 0 0 false)
        (repeat (Particle.mk 10 700 9 690) TOTAL_POINTS) 4 (Mouse.mk 0 0 false)
        (LastMouse.mk 0 0 0) 0 0.

Lemma satisfyConstraints_free_above_floor_witness :
  (length (points dc_sim500) = TOTAL_POINTS /\ (2 < freeCount dc_sim500)%nat /\
   (2 < TOTAL_POINTS - 1)%nat) /\
  Particle.y (nth 2 (points (satisfyConstraints (fun a b => Qabs a + Qabs b) 600
                dc_sim500)) Particle.zero) <= 600.
Proof.
  assert (H1 : length (points dc_sim500) = TOTAL_POINTS) by reflexivity.
  assert (H2 : (2 < freeCount dc_sim500)%nat) by (vm_compute; lia).
  assert (H3 : (2 < TOTAL_POINTS - 1)%nat) by (vm_compute; lia).
  split; [split; [exact H1 | split; assumption]|].
  exact (satisfyConstraints_free_above_floor (fun a b => Qabs a + Qabs b) 600
           dc_sim500 2 H1 H2 H3).
Defined.

(** ** Releasing particles *)

(** [maybeFreeNext(n)] releases [min n (TOTAL_POINTS - 1 - freeCount)]
    particles: it stops at [TOTAL_POINTS - 1] and never changes a count
    already there or beyond. *)
Theorem maybeFreeNext_releases n fc :
  maybeFreeNext n fc =
  if (TOTAL_POINTS - 1 <=? fc)%nat then fc else Nat.min (fc + n) (TOTAL_POINTS - 1).
Proof. exact (dc_maybeFreeNext_closed n fc). Qed.

(** A pointer press either leaves the disk and the free count as they
    were, or it is a hit: the cooldown becomes [0.1] and between 1 and 8
    particles are released by [maybeFreeNext]. *)
Theorem handleMouseImpulses_release hypot dt now st :
  let st' := handleMouseImpulses hypot dt now st in
  (ball st' = ball st /\ freeCount st' = freeCount st) \/
  (hitCooldown st' = 1 # 10 /\
   exists segs, (1 <= segs <= 8)%nat /\
     freeCount st' = maybeFreeNext segs (freeCount st)).
Proof.
  cbv zeta. unfold handleMouseImpulses. cbv zeta.
  destruct (negb _); [left; split; reflexivity|].
  destruct (Qltb 0 _); [left; split; reflexivity|].
  destruct (Qltb _ _); [left; split; reflexivity|].
  right. cbn [hitCooldown freeCount]. split; [reflexivity|].
  eexists. split; [|reflexivity].
  unfold clampZ. lia.
Qed.


End DiskChainMore.

(* ================================================================== *)
(** * Initial layout of the Verlet chain *)
(* ================================================================== *)

Module DiskChainInitFacts.
Import DiskChain DiskChainInit DiskChainMore.
Local Open Scope Q_scope.

(** [initRope] with [freeCount >= 1] and a point array longer than
    [freeCount]: it keeps the length, leaves points [1 .. freeCount - 2]
    as they were, puts every wound point at rest on its place on the disk
    ([worldFromLocal]), and seeds [points[freeCount - 1]] one segment
    from the head along the exit tangent [(-sin, cos)] (2 px lower) and
    [points[0]] one more segment further. *)
Theorem initRope_layout cos sin wl ea fc b pts :
  (1 <= fc)%nat -> (fc < length pts)%nat -> (fc < TOTAL_POINTS)%nat ->
  exists pts', initRope cos sin wl ea fc b pts = Some pts' /\
    length pts' = length pts /\
    (forall i, (1 <= i)%nat -> (i + 1 < fc)%nat ->
       nth i pts' Particle.zero = nth i pts Particle.zero) /\
    (forall i, (fc <= i)%nat -> (i < length pts)%nat -> (i < TOTAL_POINTS)%nat ->
       nth i pts' Particle.zero =
       Particle.mk (fst (worldFromLocal cos sin wl b i)) (snd (worldFromLocal cos sin wl b i))
                   (fst (worldFromLocal cos sin wl b i)) (snd (worldFromLocal cos sin wl b i))) /\
    (let p1x := fst (worldFromLocal cos sin wl b fc) + - sin ea * SEG_LEN in
     let p1y := snd (worldFromLocal cos sin wl b fc) + cos ea * SEG_LEN + 2 in
     let p0x := p1x + - sin ea * SEG_LEN in
     let p0y := p1y + cos ea * SEG_LEN + 2 in
     nth 0 pts' Particle.zero = Particle.mk p0x p0y p0x p0y /\
     ((2 <= fc)%nat -> nth (fc - 1) pts' Particle.zero = Particle.mk p1x p1y p1x p1y)).
Proof.
  intros H1 Hl Ht.
  destruct fc as [|fcm1]; [lia|].
  unfold initRope. cbv zeta.
  eexists. split; [reflexivity|].
  split; [rewrite !dc_length_set_nth, dc_length_mapi_from; reflexivity|].
  split; [|split].
  - intros i Hi1 Hi2.
    rewrite dc_nth_set_nth_neq by lia. rewrite dc_nth_set_nth_neq by lia.
    rewrite (dc_nth_mapi_from _ 0 _ i Particle.zero) by lia.
    cbn [Nat.add]. rewrite (proj2 (Nat.leb_gt (S fcm1) i)) by lia. reflexivity.
  - intros i Hi1 Hi2 Hi3.
    rewrite dc_nth_set_nth_neq by lia. rewrite dc_nth_set_nth_neq by lia.
    rewrite (dc_nth_mapi_from _ 0 _ i Particle.zero) by lia.
    cbn [Nat.add]. rewrite (proj2 (Nat.leb_le (S fcm1) i)) by lia.
    rewrite (proj2 (Nat.ltb_lt i TOTAL_POINTS)) by lia. cbn [andb].
    destruct (worldFromLocal cos sin wl b i) as [wx wy]. reflexivity.
  - rewrite (dc_nth_mapi_from _ 0 _ (S fcm1) Particle.zero) by lia.
    cbn [Nat.add]. rewrite Nat.leb_refl.
    rewrite (proj2 (Nat.ltb_lt (S fcm1) TOTAL_POINTS)) by lia. cbn [andb].
    destruct (worldFromLocal cos sin wl b (S fcm1)) as [hx hy].
    cbn [fst snd Particle.x Particle.y]. split.
    + rewrite dc_nth_set_nth_eq; [reflexivity|].
      rewrite dc_length_set_nth, dc_length_mapi_from. lia.
    + intros H2. replace (S fcm1 - 1)%nat with fcm1 by lia.
      rewrite dc_nth_set_nth_neq by lia.
      rewrite dc_nth_set_nth_eq; [reflexivity|].
      rewrite dc_length_mapi_from. lia.
Qed.

Lemma initRope_layout_witness :
  ((1 <= freeCount0)%nat /\ (freeCount0 < length initialPoints)%nat /\
   (freeCount0 < TOTAL_POINTS)%nat) /\
  exists pts', initRope (fun _ => 1) (fun _ => 0) [] 0 freeCount0
                 (mkDisk 400 300 400 300 0 0 false) initialPoints = Some pts' /\
    nth 1 pts' Particle.zero = Particle.zero /\ nth 2 pts' Particle.zero = Particle.zero.
Proof.
  assert (H1 : (1 <= freeCount0)%nat) by (vm_compute; lia).
  assert (H2 : (freeCount0 < length initialPoints)%nat) by (vm_compute; lia).
  assert (H3 : (freeCount0 < TOTAL_POINTS)%nat) by (vm_compute; lia).
  split; [split; [exact H1 | split; assumption]|].
  destruct (initRope_layout (fun _ => 1) (fun _ => 0) [] 0 freeCount0
              (mkDisk 400 300 400 300 0 0 false) initialPoints H1 H2 H3)
    as [pts' [E [_ [U _]]]].
  exists pts'. split; [exact E|].
  split; [rewrite (U 1%nat) | rewrite (U 2%nat)];
    try (vm_compute; lia); reflexivity.
Defined.

End DiskChainInitFacts.

(* ================================================================== *)
(** * Further properties of the IK rope and the spool *)
(* ================================================================== *)

Module IKRopeMore.
Import RopeNode IKRope.
Local Open Scope R_scope.
Import Stdlib.micromega.Lra.

(** The previous position of a node, which the Verlet step reads. *)
Definition prevPos (n : t) : R * R := (px n, py n).

Lemma ik_forwardChain_prev seg next ns :
  map prevPos (forwardChain seg next ns) = map prevPos ns.
Proof.
  revert next; induction ns as [|n ns IH]; intros next; simpl; [reflexivity|].
  rewrite IH. reflexivity.
Qed.

Lemma ik_backwardChain_prev seg prev ns :
  map prevPos (backwardChain seg prev ns) = map prevPos ns.
Proof.
  revert prev; induction ns as [|n ns IH]; intros prev; simpl; [reflexivity|].
  rewrite IH. reflexivity.
Qed.

Lemma ik_forwardReach_prev seg tx ty ns :
  map prevPos (forwardReach seg tx ty ns) = map prevPos ns.
Proof.
  unfold forwardReach.
  destruct (rev ns) as [|tl rest] eqn:E.
  - apply (f_equal (@rev t)) in E. rewrite rev_involutive in E. subst ns.
    reflexivity.
  - apply (f_equal (@rev t)) in E. rewrite rev_involutive in E. subst ns.
    rewrite !map_rev. f_equal. simpl. rewrite ik_forwardChain_prev. reflexivity.
Qed.

Lemma ik_ropeIter_prev seg ax ay tx ty ns :
  map prevPos (ropeIter seg ax ay tx ty ns) = map prevPos ns.
Proof.
  unfold ropeIter, backwardReach.
  rewrite <- (ik_forwardReach_prev seg tx ty ns).
  destruct (forwardReach seg tx ty ns) as [|hd rest]; [reflexivity|].
  simpl. rewrite ik_backwardChain_prev. reflexivity.
Qed.

Lemma ik_iterRope_prev k seg ax ay tx ty ns :
  map prevPos (iterRope k seg ax ay tx ty ns) = map prevPos ns.
Proof.
  induction k as [|k IH]; [reflexivity|].
  cbn [iterRope]. rewrite ik_ropeIter_prev. exact IH.
Qed.

Lemma ik_ropeIter_head seg ax ay tx ty ns :
  exists f r, ropeIter seg ax ay tx ty ns = setXY f ax ay :: r \/
              ropeIter seg ax ay tx ty ns = [].
Proof.
  unfold ropeIter, backwardReach.
  destruct (forwardReach seg tx ty ns) as [|hd rest].
  - exists (mk 0 0 0 0), []. right. reflexivity.
  - exists hd, (backwardChain seg (setXY hd ax ay) rest). left. reflexivity.
Qed.

Lemma ik_iterRope_pins k seg ax ay tx ty rest :
  exists r, iterRope (S k) seg ax ay tx ty (mk ax ay ax ay :: rest)
            = mk ax ay ax ay :: r /\ map prevPos r = map prevPos rest.
Proof.
  pose proof (ik_iterRope_prev (S k) seg ax ay tx ty (mk ax ay ax ay :: rest)) as Hp.
  change (iterRope (S k) seg ax ay tx ty (mk ax ay ax ay :: rest))
    with (ropeIter seg ax ay tx ty (iterRope k seg ax ay tx ty (mk ax ay ax ay :: rest)))
    in *.
  destruct (ik_ropeIter_head seg ax ay tx ty
              (iterRope k seg ax ay tx ty (mk ax ay ax ay :: rest))) as [f [r [Er | Er]]];
    rewrite Er in *; [|discriminate].
  simpl in Hp. injection Hp as Hx Hy Hr.
  exists r. split; [|exact Hr].
  unfold setXY. rewrite Hx, Hy. reflexivity.
Qed.

(** [satisfyRope] fails only on an empty rope.  Otherwise its result
    starts with a head standing still on the anchor (position and
    previous position both the anchor), and every other node keeps its
    previous position: the solver moves positions only, so the count of
    nodes and their Verlet history are kept. *)
Theorem satisfyRope_pins_head seg ax ay ns :
  (satisfyRope seg ax ay ns = None <-> ns = []) /\
  forall ns', satisfyRope seg ax ay ns = Some ns' ->
    exists rest', ns' = mk ax ay ax ay :: rest' /\
                  map prevPos rest' = map prevPos (tl ns).
Proof.
  split.
  - destruct ns as [|n [|m rest]]; simpl; split; intros H; congruence.
  - intros ns' E. unfold satisfyRope in E.
    destruct ns as [|n [|m rest]]; [discriminate| |].
    + injection E as <-. exists []. split; reflexivity.
    + injection E as <-. cbv zeta.
      match goal with
      | |- exists r, ropeIter _ _ _ ?tx ?ty _ = _ /\ _ =>
          let r := fresh "r" in let Er := fresh "Er" in let Hr := fresh "Hr" in
          destruct (ik_iterRope_pins 4 seg ax ay tx ty (m :: rest)) as [r [Er Hr]];
          exists r; split; [exact Er | exact Hr]
      end.
Qed.

Lemma satisfyRope_pins_head_witness :
  exists ns', satisfyRope 10 0 0 [mk 1 1 1 1; mk 5 5 4 4; mk 9 9 9 8] = Some ns' /\
    exists rest', ns' = mk 0 0 0 0 :: rest' /\
                  map prevPos rest' = map prevPos [mk 5 5 4 4; mk 9 9 9 8].
Proof.
  eexists. split; [reflexivity|].
  apply (proj2 (satisfyRope_pins_head 10 0 0 [mk 1 1 1 1; mk 5 5 4 4; mk 9 9 9 8])).
  reflexivity.
Defined.



End IKRopeMore.

Module SpoolMore.
Import RigidBody Spool.
Local Open Scope Q_scope.
Import Stdlib.micromega.Lqa.

Lemma sp_clamp_mono v1 v2 lo hi :
  lo <= hi -> v1 <= v2 -> clamp v1 lo hi <= clamp v2 lo hi.
Proof.
  intros Hlh Hv. unfold clamp.
  destruct (Q.min_spec hi v1) as [[H1 E1] | [H1 E1]]; rewrite E1;
  destruct (Q.min_spec hi v2) as [[H2 E2] | [H2 E2]]; rewrite E2;
  destruct (Q.max_spec lo v1) as [[H3 E3] | [H3 E3]]; try rewrite E3;
  destruct (Q.max_spec lo hi) as [[H4 E4] | [H4 E4]]; try rewrite E4;
  destruct (Q.max_spec lo v2) as [[H5 E5] | [H5 E5]]; try rewrite E5;
  try lra.
Qed.

(** The wound radius of [part_001]: [r_spool_of] stays in
    [[r_core, radius]], grows with the released length [L], is [r_core]
    with nothing released and the full [radius] once all [L_total] is
    out. *)
Theorem r_spool_of_range L1 L2 :
  L1 <= L2 ->
  r_core <= r_spool_of L1 /\ r_spool_of L1 <= r_spool_of L2 /\
  r_spool_of L2 <= radius /\
  r_spool_of 0 == r_core /\ r_spool_of L_total == radius.
Proof.
  intros HL.
  assert (Hc : r_core <= radius) by (vm_compute; discriminate).
  assert (Ha : 0 <= alpha) by (vm_compute; discriminate).
  split; [unfold r_spool_of, clamp; apply Q.le_max_l|].
  split.
  - unfold r_spool_of. apply sp_clamp_mono; [exact Hc|].
    assert (H : 0 <= alpha * (L2 - L1)) by (apply Qmult_le_0_compat; lra).
    setoid_replace (radius - alpha * (L_total - L2))
      with ((radius - alpha * (L_total - L1)) + alpha * (L2 - L1)) by ring.
    lra.
  - split; [|split; vm_compute; reflexivity].
    unfold r_spool_of, clamp. apply Q.max_lub; [exact Hc | apply Q.le_min_l].
Qed.

Lemma r_spool_of_range_witness :
  0 <= 100 /\ r_spool_of 0 <= r_spool_of 100.
Proof.
  assert (H : 0 <= 100) by (vm_compute; discriminate).
  split; [exact H|].
  exact (proj1 (proj2 (r_spool_of_range 0 100 H))).
Defined.

End SpoolMore.
